(** * CombinatorialKnowledge

    A shallow embedding of [src/gi/knowledge/combinatorial.py], the
    hypothesis-based combinatorial learner, and the properties of its
    training method [on] and of [predict].

    - Rows, constants and the results of relation functions are Python
      values ([None], booleans, integers); keys are compared as Python
      compares tuples ([True == 1]).
    - [self.hypotheses] is a dictionary in insertion order: an
      association list without equal keys.
    - A learner owns its hypothesis map, the state objects in it and,
      through them, its children; nothing is shared between learners
      but the configuration, which is never assigned to.  The state is
      therefore a tree, and a method call on a child is a function from
      the child to the child afterwards and the result.
    - An exception is a result of its own kind; it carries whether it
      was raised inside a relation function or by a statement of the
      learner, and [try ... except Exception] is [try_except].
    - Relation functions are pure: a function of the LHS values and of
      the RHS argument, which is absent in prediction mode. *)

From Stdlib Require Import ZArith List Bool Lia Sorting.Sorted.
Import ListNotations.
Open Scope Z_scope.

(** ** Python values *)

(** The values that rows, constants and relation functions exchange:
    [None], booleans and integers. *)
Inductive value : Type :=
| VNone
| VBool (b : bool)
| VInt (z : Z).

(** Python's [==] on these values: [bool] is a subclass of [int], so
    [True == 1] and [False == 0]; [None] equals only itself. *)
Definition int_of_bool (b : bool) : Z := if b then 1 else 0.

Definition value_eqb (a b : value) : bool :=
  match a, b with
  | VNone, VNone => true
  | VBool x, VBool y => Bool.eqb x y
  | VInt x, VInt y => x =? y
  | VBool x, VInt y => int_of_bool x =? y
  | VInt x, VBool y => x =? int_of_bool y
  | _, _ => false
  end.

(** Truth value of an object in [if passed:]. *)
Definition truthy (v : value) : bool :=
  match v with
  | VNone => false
  | VBool b => b
  | VInt z => negb (z =? 0)
  end.

(** ** Exceptions and the error monad *)

(** Instances of Python's [Exception]. *)
Inductive exn : Type :=
| IndexError
| TypeError
| ValueError
| OtherError (tag : nat).

(** What a call of a relation function does: it returns a value or
    raises. *)
Inductive outcome : Type :=
| Returns (v : value)
| Throws (e : exn).

(** A relation function is called as [fn(lhs_values, rhs)] (comparison
    mode, [Some rhs]) or as [fn(lhs_values)] (prediction mode, [None]). *)
Definition relfn : Type := list value -> option value -> outcome.

(** An exception in flight remembers where it was raised: inside a
    relation function, or by the learner's own statements (indexing,
    [combinations], argument binding). *)
Inductive raised : Type :=
| RelationFault (e : exn)
| LearnerFault (e : exn).

Inductive result (A : Type) : Type :=
| Ok (a : A)
| Raise (r : raised).
Arguments Ok {A} a.
Arguments Raise {A} r.

Definition bind {A B} (m : result A) (f : A -> result B) : result B :=
  match m with
  | Ok a => f a
  | Raise r => Raise r
  end.

Notation "x <- m ;; k" := (bind m (fun x => k))
  (at level 61, m at next level, right associativity).


(** [try: x = m  except Exception: x = handler]. *)
Definition try_except {A} (m : result A) (handler : A) : A :=
  match m with
  | Ok a => a
  | Raise _ => handler
  end.

Definition call (fn : relfn) (lhs : list value) (rhs : option value)
  : result value :=
  match fn lhs rhs with
  | Returns v => Ok v
  | Throws e => Raise (RelationFault e)
  end.

Fixpoint map_result {A B} (f : A -> result B) (l : list A)
  : result (list B) :=
  match l with
  | [] => Ok []
  | x :: r => y <- f x ;; ys <- map_result f r ;; Ok (y :: ys)
  end.

(** Nested generator loops: the items of every [f x], in order. *)
Fixpoint concat_result {A B} (f : A -> result (list B)) (l : list A)
  : result (list B) :=
  match l with
  | [] => Ok []
  | x :: r => ys <- f x ;; zs <- concat_result f r ;; Ok (ys ++ zs)
  end.

(** ** Sequences *)

(** [row[i]] for a Python integer [i]: negative indices count from the
    end, anything outside [-n .. n-1] raises [IndexError]. *)
Definition row_get (row : list value) (i : Z) : result value :=
  let n := Z.of_nat (length row) in
  let j := if i <? 0 then i + n else i in
  if (0 <=? j) && (j <? n) then
    match nth_error row (Z.to_nat j) with
    | Some v => Ok v
    | None => Raise (LearnerFault IndexError)
    end
  else Raise (LearnerFault IndexError).

(** [tuple(row[i] for i in lhs_subset)]. *)
Definition lhs_values_of (row : list value) (lhs_subset : list nat)
  : result (list value) :=
  map_result (fun i => row_get row (Z.of_nat i)) lhs_subset.

(** [self.functions[fn_index]]. *)
Definition fn_get (functions : list relfn) (fn_index : nat) : result relfn :=
  match nth_error functions fn_index with
  | Some fn => Ok fn
  | None => Raise (LearnerFault IndexError)
  end.

(** [enumerate(l)]. *)
Definition enumerate {A} (l : list A) : list (nat * A) :=
  combine (seq 0 (length l)) l.

(** [range(lo, hi)]. *)
Definition range (lo hi : Z) : list Z :=
  map (fun i => lo + Z.of_nat i) (seq 0 (Z.to_nat (hi - lo))).

(** [itertools.combinations(l, r)] for [r >= 0], in its lexicographic
    order. *)
Fixpoint combinations {A} (l : list A) (r : nat) : list (list A) :=
  match r with
  | O => [[]]
  | S r' =>
      match l with
      | [] => []
      | x :: xs => map (cons x) (combinations xs r') ++ combinations xs r
      end
  end.

(** [combinations(indices, r)] raises [ValueError] for a negative [r]. *)
Definition combinations_z {A} (l : list A) (r : Z) : result (list (list A)) :=
  if r <? 0 then Raise (LearnerFault ValueError)
  else Ok (combinations l (Z.to_nat r)).

(** ** Hypothesis keys *)

(** The RHS descriptor [(rhs_type, rhs_val)]: [("target", None)],
    [("feature", i)] or [("constant", c)]. *)
Inductive rhs : Type :=
| RTarget
| RFeature (i : nat)
| RConstant (c : value).

(** [(fn_index, lhs_subset, (rhs_type, rhs_val))]. *)
Definition key : Type := (nat * list nat * rhs)%type.

Definition is_target (r : rhs) : bool :=
  match r with RTarget => true | _ => false end.

Definition rhs_eqb (a b : rhs) : bool :=
  match a, b with
  | RTarget, RTarget => true
  | RFeature i, RFeature j => Nat.eqb i j
  | RConstant c, RConstant d => value_eqb c d
  | _, _ => false
  end.

Fixpoint subset_eqb (a b : list nat) : bool :=
  match a, b with
  | [], [] => true
  | x :: a', y :: b' => Nat.eqb x y && subset_eqb a' b'
  | _, _ => false
  end.

(** Tuple equality, as the dictionary and [key == self.parent_key] use
    it. *)
Definition key_eqb (a b : key) : bool :=
  let '(f1, s1, r1) := a in
  let '(f2, s2, r2) := b in
  Nat.eqb f1 f2 && subset_eqb s1 s2 && rhs_eqb r1 r2.

(** [key == self.parent_key], where [parent_key] may be [None]. *)
Definition is_parent_key (k : key) (parent_key : option key) : bool :=
  match parent_key with
  | Some p => key_eqb k p
  | None => false
  end.

(** A canonical representative of each class of equal values, RHS
    descriptors and keys: [key_eqb] decides equality of representatives
    ([key_eqb_norm]). *)
Definition norm_value (v : value) : value :=
  match v with
  | VBool b => VInt (int_of_bool b)
  | _ => v
  end.

Definition norm_rhs (r : rhs) : rhs :=
  match r with
  | RConstant c => RConstant (norm_value c)
  | _ => r
  end.

Definition norm_key (k : key) : key :=
  let '(f, s, r) := k in (f, s, norm_rhs r).

(** ** Dictionaries keyed by hypothesis keys

    A Python [dict] keeps insertion order; assigning to a key that is
    already present keeps its position (and the key object first
    inserted). *)
Section Dict.
Context {V : Type}.

Definition dict : Type := list (key * V).

Fixpoint dict_get (d : dict) (k : key) : option V :=
  match d with
  | [] => None
  | (k', v) :: r => if key_eqb k' k then Some v else dict_get r k
  end.

Definition dict_mem (d : dict) (k : key) : bool :=
  match dict_get d k with Some _ => true | None => false end.

Fixpoint dict_set (d : dict) (k : key) (v : V) : dict :=
  match d with
  | [] => [(k, v)]
  | (k', v') :: r =>
      if key_eqb k' k then (k', v) :: r else (k', v') :: dict_set r k v
  end.

(** No two entries have equal keys. *)
Fixpoint dict_ok (d : dict) : Prop :=
  match d with
  | [] => True
  | (k, _) :: r => dict_get r k = None /\ dict_ok r
  end.
End Dict.
Arguments dict V : clear implicits.

(** ** The learner *)

Local Set Warnings "-register-all".

(** Hypothesis state [{"fail": int, "child": None or learner}]. *)
Record hstate (L : Type) : Type := HState {
  fail : Z;
  child : option L
}.
Arguments HState {L} fail child.
Arguments fail {L} h.
Arguments child {L} h.

(** The attributes set by [__init__], apart from [hypotheses]. *)
Record config : Type := Config {
  functions : list relfn;
  constants : list value;
  min_lhs : Z;
  max_lhs : Z;
  tolerance : Z;
  max_depth : Z;
  parent_key : option key
}.

Inductive learner : Type :=
| Learner (cfg : config) (hypotheses : dict (hstate learner)).

Definition cfg_of (l : learner) : config :=
  match l with Learner c _ => c end.

Definition hypotheses (l : learner) : dict (hstate learner) :=
  match l with Learner _ h => h end.

(** [CombinatorialKnowledge(functions, constants=..., ...)]: the
    hypothesis map starts empty. *)
Definition new_learner (cfg : config) : learner := Learner cfg [].

(** [Context(row, target_index)], and the other objects [on] may be
    handed. *)
Inductive pyobj : Type :=
| Context (row : list value) (target_index : Z)
| Other.

(** ** Enumeration of the candidate hypotheses *)

(** [_rhs_candidates]. *)
Definition rhs_candidates (cfg : config) (row : list value) (target_index : Z)
  : list rhs :=
  [RTarget]
  ++ map (fun iv => RFeature (fst iv))
         (filter (fun iv => negb (Z.of_nat (fst iv) =? target_index))
                 (enumerate row))
  ++ map RConstant (constants cfg).

(** [ascending lo hi s]: the indices of [s] increase strictly and lie in
    [lo .. hi-1]. *)
Fixpoint ascending (lo hi : nat) (s : list nat) : Prop :=
  match s with
  | [] => True
  | x :: s' => (lo <= x < hi)%nat /\ ascending (S x) hi s'
  end.

(** The RHS descriptors of the candidate space of a row and a target
    index. *)
Definition rhs_in_space (cfg : config) (row : list value) (target_index : Z)
    (r : rhs) : Prop :=
  match r with
  | RTarget => True
  | RFeature i => (i < length row)%nat /\ Z.of_nat i <> target_index
  | RConstant c => In c (constants cfg)
  end.

(** One item yielded by [_enumerate_hypotheses]:
    [key, fn, lhs_subset, lhs_values, rhs_type, rhs_val]. *)
Record candidate : Type := Candidate {
  c_key : key;
  c_fn : relfn;
  c_lhs_subset : list nat;
  c_lhs_values : list value;
  c_rhs : rhs
}.

Definition candidates_of_subset (cfg : config) (row : list value)
    (target_index : Z) (lhs_subset : list nat) : result (list candidate) :=
  lhs_values <- lhs_values_of row lhs_subset ;;
  Ok (flat_map
        (fun ifn : nat * relfn =>
           map (fun r => Candidate (fst ifn, lhs_subset, r) (snd ifn)
                                   lhs_subset lhs_values r)
               (rhs_candidates cfg row target_index))
        (enumerate (functions cfg))).

(** [_enumerate_hypotheses]. *)
Definition enumerate_hypotheses (cfg : config) (row : list value)
    (target_index : Z) : result (list candidate) :=
  let indices := seq 0 (length row) in
  concat_result
    (fun subset_size =>
       subsets <- combinations_z indices subset_size ;;
       concat_result (candidates_of_subset cfg row target_index) subsets)
    (range (min_lhs cfg) (max_lhs cfg + 1)).

(** ** Training: [on] *)

Definition fresh_hstate : hstate learner := HState 0 None.

(** [try: passed = fn(lhs_values, rhs)  except Exception: passed = False],
    followed by the test [if passed:]. *)
Definition holds (m : result value) : bool :=
  truthy (try_except m (VBool false)).

(** Evaluation of one enumerated candidate in comparison mode.  For a
    target RHS, [y = row[target_index]] is read before the [try]; for a
    feature RHS, [row[rhs_val]] is read inside it. *)
Definition evaluate (row : list value) (target_index : Z) (c : candidate)
  : result bool :=
  match c_rhs c with
  | RTarget =>
      y <- row_get row target_index ;;
      Ok (holds (call (c_fn c) (c_lhs_values c) (Some y)))
  | RFeature i =>
      Ok (holds (v <- row_get row (Z.of_nat i) ;;
                 call (c_fn c) (c_lhs_values c) (Some v)))
  | RConstant v =>
      Ok (holds (call (c_fn c) (c_lhs_values c) (Some v)))
  end.

(** First loop of [on]: every candidate that passes is carried into
    [new_hypotheses], with its old state object if it has one. *)
Fixpoint renew (old : dict (hstate learner)) (row : list value)
    (target_index : Z) (cands : list candidate)
    (new_hypotheses : dict (hstate learner))
  : result (dict (hstate learner)) :=
  match cands with
  | [] => Ok new_hypotheses
  | c :: rest =>
      passed <- evaluate row target_index c ;;
      renew old row target_index rest
        (if passed then
           let h := match dict_get old (c_key c) with
                    | Some h => h
                    | None => fresh_hstate
                    end in
           dict_set new_hypotheses (c_key c) h
         else new_hypotheses)
  end.

(** Second loop of [on]: all old but not renewed hypotheses fail. *)
Definition age_one (tolerance : Z) (new_hypotheses : dict (hstate learner))
    (kh : key * hstate learner) : dict (hstate learner) :=
  let '(k, h) := kh in
  if dict_mem new_hypotheses k then new_hypotheses
  else
    let h' := HState (fail h + 1) (child h) in
    if fail h' <=? tolerance then dict_set new_hypotheses k h'
    else new_hypotheses.

Definition age (tolerance : Z) (old new_hypotheses : dict (hstate learner))
  : dict (hstate learner) :=
  fold_left (age_one tolerance) old new_hypotheses.

(** Lines 95-138: the value assigned to [self.hypotheses]. *)
Definition retained (l : learner) (row : list value) (target_index : Z)
  : result (dict (hstate learner)) :=
  cands <- enumerate_hypotheses (cfg_of l) row target_index ;;
  new_hypotheses <- renew (hypotheses l) row target_index cands [] ;;
  Ok (age (tolerance (cfg_of l)) (hypotheses l) new_hypotheses).

(** The configuration of a child created for the hypothesis [k]. *)
Definition child_config (cfg : config) (k : key) : config :=
  {| functions := functions cfg;
     constants := constants cfg;
     min_lhs := min_lhs cfg;
     max_lhs := max_lhs cfg;
     tolerance := tolerance cfg;
     max_depth := max_depth cfg - 1;
     parent_key := Some k |}.

(** [if h["child"] is None: h["child"] = CombinatorialKnowledge(...)],
    then [h["child"]]. *)
Definition child_or_new (cfg : config) (k : key) (h : hstate learner)
  : learner :=
  match child h with
  | Some c => c
  | None => new_learner (child_config cfg k)
  end.

(** Binding of the positional arguments of [on(self, ctx, gi)]: a call
    that does not supply both raises [TypeError] before the body runs. *)
Definition arity_error (l : learner) : learner * result unit :=
  (l, Raise (LearnerFault TypeError)).

(** The resolved RHS value of a feature or constant hypothesis
    ([rhs_val] itself, which is [None], for a target one). *)
Definition rhs_value_of (row : list value) (r : rhs) : result value :=
  match r with
  | RFeature i => row_get row (Z.of_nat i)
  | RConstant c => Ok c
  | RTarget => Ok VNone
  end.

Section Method.
(** The method [on] itself, as the recursive call in
    [_update_children] finds it on a child. *)
Variable self_on : learner -> list pyobj -> learner * result unit.

(** The re-evaluation of a retained hypothesis in [_update_children]. *)
Definition reevaluate (cfg : config) (row : list value) (k : key)
  : result bool :=
  let '(fn_index, lhs_subset, r) := k in
  lhs_values <- lhs_values_of row lhs_subset ;;
  fn <- fn_get (functions cfg) fn_index ;;
  rhs_value <- rhs_value_of row r ;;
  Ok (holds (call fn lhs_values (Some rhs_value))).

(** One iteration of the loop of [_update_children]: the state of the
    hypothesis afterwards, and whether the iteration raised. *)
Definition refresh_one (cfg : config) (row : list value)
    (target_index : Z) (k : key) (h : hstate learner)
  : hstate learner * result unit :=
  if is_target (snd k) then (h, Ok tt)
  else if is_parent_key k (parent_key cfg) then (h, Ok tt)
  else
    match reevaluate cfg row k with
    | Raise r => (h, Raise r)
    | Ok false => (h, Ok tt)
    | Ok true =>
        let c := child_or_new cfg k h in
        let '(c', r) := self_on c [Context row target_index] in
        (HState (fail h) (Some c'), r)
    end.

Fixpoint refresh (cfg : config) (row : list value) (target_index : Z)
    (hyps : dict (hstate learner))
  : dict (hstate learner) * result unit :=
  match hyps with
  | [] => ([], Ok tt)
  | (k, h) :: rest =>
      match refresh_one cfg row target_index k h with
      | (h', Ok _) =>
          let '(rest', r) := refresh cfg row target_index rest in
          ((k, h') :: rest', r)
      | (h', Raise r) => ((k, h') :: rest, Raise r)
      end
  end.

(** [_update_children]. *)
Definition update_children (l : learner) (row : list value)
    (target_index : Z) : learner * result unit :=
  if max_depth (cfg_of l) <=? 0 then (l, Ok tt)
  else
    let '(hyps, r) := refresh (cfg_of l) row target_index (hypotheses l) in
    (Learner (cfg_of l) hyps, r).

(** The body of [on], entered once [ctx] and [gi] are bound. *)
Definition on_body (l : learner) (ctx gi : pyobj) : learner * result unit :=
  match ctx with
  | Other => (l, Ok tt)
  | Context row target_index =>
      match retained l row target_index with
      | Raise r => (l, Raise r)
      | Ok new_hypotheses =>
          update_children (Learner (cfg_of l) new_hypotheses)
                          row target_index
      end
  end.

Definition on_with (l : learner) (args : list pyobj)
  : learner * result unit :=
  match args with
  | [ctx; gi] => on_body l ctx gi
  | _ => arity_error l
  end.
End Method.

(** [on].  The only recursive call, [h["child"].on(Context(row,
    target_index))], supplies one argument, so it never enters the body
    of the child's method; [on_unfold] below shows that this definition
    is the method calling itself. *)
Definition on : learner -> list pyobj -> learner * result unit :=
  on_with (fun c _ => arity_error c).

(** A training call as the orchestrator makes it: [on(Context(row,
    target_index), gi)]. *)
Definition train (l : learner) (row : list value) (target_index : Z)
  : learner * result unit :=
  on l [Context row target_index; Other].

(** The learner after a sequence of training calls, whether or not they
    raised. *)
Definition train_all (l : learner) (examples : list (list value * Z))
  : learner :=
  fold_left (fun l ex => fst (train l (fst ex) (snd ex))) examples l.

(** ** Prediction: [predict] *)

Definition is_none (v : value) : bool :=
  match v with VNone => true | _ => false end.

Section PredictLoop.
(** The method [predict] itself, as the recursive call
    [h["child"].predict(row)] finds it on a child. *)
Variable self_predict : learner -> list value -> learner * result (list value).

(** The loop of [predict] over [self.hypotheses.items()], with the
    list [out] built so far; it returns the hypotheses as the loop
    leaves them and the final [out]. *)
Fixpoint predict_hyps (cfg : config) (row : list value)
    (hs : dict (hstate learner)) (out : list value) {struct hs}
  : dict (hstate learner) * result (list value) :=
  match hs with
  | [] => ([], Ok out)
  | (k, h) :: rest =>
      let '(fn_index, lhs_subset, r) := k in
      match (fn <- fn_get (functions cfg) fn_index ;;
             lhs_values <- lhs_values_of row lhs_subset ;;
             Ok (fn, lhs_values)) with
      | Raise e => (hs, Raise e)
      | Ok (fn, lhs_values) =>
          match r with
          | RTarget =>
              let yhat := try_except (call fn lhs_values None) VNone in
              let out' := if is_none yhat then out else out ++ [yhat] in
              let '(rest', res) := predict_hyps cfg row rest out' in
              ((k, h) :: rest', res)
          | _ =>
              match rhs_value_of row r with
              | Raise e => (hs, Raise e)
              | Ok rhs_value =>
                  let passed :=
                    holds (call fn lhs_values (Some rhs_value)) in
                  match h with
                  | HState f (Some c) =>
                      if passed then
                        match self_predict c row with
                        | (c', Ok ys) =>
                            let '(rest', res) :=
                              predict_hyps cfg row rest (out ++ ys) in
                            ((k, HState f (Some c')) :: rest', res)
                        | (c', Raise e) =>
                            ((k, HState f (Some c')) :: rest, Raise e)
                        end
                      else
                        let '(rest', res) := predict_hyps cfg row rest out in
                        ((k, h) :: rest', res)
                  | HState f None =>
                      let '(rest', res) := predict_hyps cfg row rest out in
                      ((k, h) :: rest', res)
                  end
              end
          end
      end
  end.
End PredictLoop.

(** [predict], in state-passing style: the learner after the call and
    the list returned (or the exception raised). *)
Fixpoint predict (l : learner) (row : list value) {struct l}
  : learner * result (list value) :=
  match l with
  | Learner cfg hyps =>
      let '(hyps', res) := predict_hyps predict cfg row hyps [] in
      (Learner cfg hyps', res)
  end.

(** ** The relation functions of the repository's tests *)

(** [sum(lhs)]: integers and booleans add up, [None] raises
    [TypeError]. *)
Fixpoint py_sum (lhs : list value) : option Z :=
  match lhs with
  | [] => Some 0
  | v :: r =>
      match v, py_sum r with
      | VInt z, Some s => Some (z + s)
      | VBool b, Some s => Some (int_of_bool b + s)
      | _, _ => None
      end
  end.

(** [rhs is None], for an argument that was omitted or passed as
    [None]. *)
Definition rhs_is_none (rhs : option value) : bool :=
  match rhs with
  | None => true
  | Some v => is_none v
  end.

Definition rhs_or_none (rhs : option value) : value :=
  match rhs with
  | None => VNone
  | Some v => v
  end.

(** [def equals_sum(lhs, rhs=None): total = sum(lhs);
     return total if rhs is None else (total == rhs)]. *)
Definition equals_sum : relfn := fun lhs rhs =>
  match py_sum lhs with
  | None => Throws TypeError
  | Some total =>
      if rhs_is_none rhs then Returns (VInt total)
      else Returns (VBool (value_eqb (VInt total) (rhs_or_none rhs)))
  end.

(** [def equals_constant(lhs, rhs=None):
     return rhs if rhs is None else (lhs[0] == rhs)]. *)
Definition equals_constant : relfn := fun lhs rhs =>
  if rhs_is_none rhs then Returns VNone
  else
    match lhs with
    | [] => Throws IndexError
    | x :: _ => Returns (VBool (value_eqb x (rhs_or_none rhs)))
    end.

(** The constructor's defaults: [constants=None] (stored as [[]]),
    [min_lhs=1], [max_lhs=2], [tolerance=5], [max_depth=1],
    [parent_key=None]. *)
Definition default_config (fns : list relfn) : config :=
  {| functions := fns; constants := []; min_lhs := 1; max_lhs := 2;
     tolerance := 5; max_depth := 1; parent_key := None |}.

Definition with_lhs (lo hi : Z) (cfg : config) : config :=
  {| functions := functions cfg; constants := constants cfg;
     min_lhs := lo; max_lhs := hi; tolerance := tolerance cfg;
     max_depth := max_depth cfg; parent_key := parent_key cfg |}.

Definition with_constants (cs : list value) (cfg : config) : config :=
  {| functions := functions cfg; constants := cs;
     min_lhs := min_lhs cfg; max_lhs := max_lhs cfg;
     tolerance := tolerance cfg; max_depth := max_depth cfg;
     parent_key := parent_key cfg |}.

Definition with_max_depth (d : Z) (cfg : config) : config :=
  {| functions := functions cfg; constants := constants cfg;
     min_lhs := min_lhs cfg; max_lhs := max_lhs cfg;
     tolerance := tolerance cfg; max_depth := d;
     parent_key := parent_key cfg |}.

(** Scenario A of the tests: [FunctionKnowledge([equals_sum], min_lhs=2,
    max_lhs=2)]. *)
Definition scenario_A : learner :=
  new_learner (with_lhs 2 2 (default_config [equals_sum])).

Definition rows_A : list (list value * Z) :=
  [ ([VInt 3; VInt 5; VInt 8], 2);
    ([VInt 2; VInt 4; VInt 6], 2);
    ([VInt 10; VInt (-1); VInt 9], 2) ].

(** Scenario C of the tests: [FunctionKnowledge([equals_constant],
    constants=[42], min_lhs=1, max_lhs=1)]. *)
Definition scenario_C : learner :=
  new_learner (with_constants [VInt 42]
                 (with_lhs 1 1 (default_config [equals_constant]))).

(** ** The tree of learners *)

(** [descendant l' l]: [l'] is [l] or a learner owned, through any
    number of [child] fields, by [l]. *)
Inductive descendant : learner -> learner -> Prop :=
| desc_self (l : learner) : descendant l l
| desc_child (l' l c : learner) (k : key) (h : hstate learner) :
    In (k, h) (hypotheses l) -> child h = Some c ->
    descendant l' c -> descendant l' l.

(** A property of single learners that holds throughout a tree. *)
Definition everywhere (P : learner -> Prop) (l : learner) : Prop :=
  forall l', descendant l' l -> P l'.

Section Height.
Variable self_height : learner -> nat.

Fixpoint height_hyps (hs : dict (hstate learner)) : nat :=
  match hs with
  | [] => O
  | (_, HState _ None) :: rest => height_hyps rest
  | (_, HState _ (Some c)) :: rest =>
      Nat.max (S (self_height c)) (height_hyps rest)
  end.
End Height.

(** The number of levels of children below a learner. *)
Fixpoint height (l : learner) : nat :=
  match l with
  | Learner _ hyps => height_hyps height hyps
  end.

(** ** Invariants of the tree *)

(** An entry of a freshly computed hypothesis map either is new or
    carries the child of an entry that was tracked under an equal key. *)
Definition carried (old : dict (hstate learner)) (k : key)
    (h' : hstate learner) : Prop :=
  h' = fresh_hstate \/
  exists k0 h, In (k0, h) old /\ key_eqb k0 k = true /\
               child h' = child h /\
               (fail h' = fail h \/ fail h' = fail h + 1).

(** Target-descriptor hypotheses own no child. *)
Definition target_terminal (l : learner) : Prop :=
  forall k h, In (k, h) (hypotheses l) ->
              is_target (snd k) = true -> child h = None.

(** No hypothesis owns a child. *)
Definition childless (l : learner) : Prop :=
  forall k h, In (k, h) (hypotheses l) -> child h = None.

(** Every child carries, as its [parent_key], the key of the hypothesis
    that owns it. *)
Definition keyed_children (l : learner) : Prop :=
  forall k h c, In (k, h) (hypotheses l) -> child h = Some c ->
                is_parent_key k (parent_key (cfg_of c)) = true.

(** The hypothesis whose key is the learner's own [parent_key] owns no
    child. *)
Definition self_guarded (l : learner) : Prop :=
  forall k h, In (k, h) (hypotheses l) ->
              is_parent_key k (parent_key (cfg_of l)) = true ->
              child h = None.

(** A child exists only under a positive budget and holds one less. *)
Definition budgeted (l : learner) : Prop :=
  forall k h c, In (k, h) (hypotheses l) -> child h = Some c ->
                0 < max_depth (cfg_of l) /\
                max_depth (cfg_of c) = max_depth (cfg_of l) - 1.

(** ** The tolerance state machine *)

(** [target_index] is a position of the row, counted from either end. *)
Definition valid_index (row : list value) (target_index : Z) : Prop :=
  - Z.of_nat (length row) <= target_index < Z.of_nat (length row).

(** The hypothesis [k] passes on the row: some enumerated candidate
    with a key equal to [k] evaluates to true.  A key that is not
    enumerated for the row does not pass. *)
Definition passes (cfg : config) (row : list value) (target_index : Z)
    (k : key) : bool :=
  match enumerate_hypotheses cfg row target_index with
  | Ok cands =>
      existsb (fun c => key_eqb (c_key c) k &&
                        match evaluate row target_index c with
                        | Ok b => b
                        | Raise _ => false
                        end) cands
  | Raise _ => false
  end.

(** The failure count of the hypothesis [k], if it is tracked. *)
Definition failure_count (l : learner) (k : key) : option Z :=
  option_map fail (dict_get (hypotheses l) k).

(** The transition of one key in one training call. *)
Definition tolerance_step (tolerance : Z) (count : option Z) (passed : bool)
  : option Z :=
  match count, passed with
  | Some f, true => Some f
  | Some f, false => if f + 1 <=? tolerance then Some (f + 1) else None
  | None, true => Some 0
  | None, false => None
  end.

(** ** Relation functions that raise *)




Section SwallowTree.
Variable self_swallow : learner -> learner.


End SwallowTree.



(** ** What [predict] returns *)

(** The key [k] can be read against a row of [n] columns: its function
    index, its LHS columns and its feature column exist. *)
Definition key_fits (cfg : config) (n : nat) (k : key) : Prop :=
  let '(fn_index, lhs_subset, r) := k in
  (fn_index < length (functions cfg))%nat /\
  Forall (fun i => i < n)%nat lhs_subset /\
  match r with
  | RFeature i => (i < n)%nat
  | _ => True
  end.

Definition fits (n : nat) (l : learner) : Prop :=
  forall k h, In (k, h) (hypotheses l) -> key_fits (cfg_of l) n k.

(** The value [v] is what a target-descriptor hypothesis among [hs]
    yields in prediction mode on the row. *)
Definition yields (cfg : config) (row : list value)
    (hs : dict (hstate learner)) (v : value) : Prop :=
  exists fn_index lhs_subset h fn lhs_values,
    In ((fn_index, lhs_subset, RTarget), h) hs /\
    fn_get (functions cfg) fn_index = Ok fn /\
    lhs_values_of row lhs_subset = Ok lhs_values /\
    call fn lhs_values None = Ok v /\
    v <> VNone.

Definition predicted_by (l : learner) (row : list value) (v : value) : Prop :=
  yields (cfg_of l) row (hypotheses l) v.

(** A relation that holds of everything and predicts its first LHS
    value: [lambda lhs, rhs=None: lhs[0] if rhs is None else True]. *)
Definition first_or_true : relfn := fun lhs rhs =>
  if rhs_is_none rhs then
    match lhs with
    | [] => Throws IndexError
    | x :: _ => Returns x
    end
  else Returns (VBool true).

(** Scenario C with the constructor's default subset sizes. *)
Definition scenario_C_default : learner :=
  new_learner (with_constants [VInt 42] (default_config [equals_constant])).

(** Every child is as its constructor left it: no hypothesis yet. *)
Definition untrained_children (l : learner) : Prop :=
  forall k h c, In (k, h) (hypotheses l) -> child h = Some c ->
                hypotheses c = [].

(** Scenario C, for a learner that was itself created under the key
    [(0, (0,), ("feature", 0))]. *)
Definition scenario_C_nested : learner :=
  new_learner
    {| functions := [equals_constant]; constants := [VInt 42];
       min_lhs := 1; max_lhs := 1; tolerance := 5; max_depth := 1;
       parent_key := Some (0%nat, [0%nat], RFeature 0) |}.

(** The learner of the tolerance test: [FunctionKnowledge([equals_sum],
    tolerance=2)], and its four training rows - two that confirm the
    sum rule, two that contradict it. *)
Definition scenario_B : learner :=
  new_learner
    {| functions := [equals_sum]; constants := []; min_lhs := 1;
       max_lhs := 2; tolerance := 2; max_depth := 1; parent_key := None |}.

Definition rows_B : list (list value * Z) :=
  [ ([VInt 1; VInt 2; VInt 3], 2);
    ([VInt 3; VInt 4; VInt 7], 2);
    ([VInt 5; VInt 5; VInt 999], 2);
    ([VInt 2; VInt 2; VInt 999], 2) ].

(** ** Further notions used below *)

(** What the target-descriptor hypotheses of [hs] append to [out] in
    [predict], in the order of the map: the value each yields in
    prediction mode, unless it is [None] (or the call raised). *)
Definition target_outputs (cfg : config) (row : list value)
    (hs : dict (hstate learner)) : list value :=
  flat_map
    (fun kh : key * hstate learner =>
       let '(fn_index, lhs_subset, r) := fst kh in
       match r with
       | RTarget =>
           match fn_get (functions cfg) fn_index,
                 lhs_values_of row lhs_subset with
           | Ok fn, Ok lhs_values =>
               let yhat := try_except (call fn lhs_values None) VNone in
               if is_none yhat then [] else [yhat]
           | _, _ => []
           end
       | _ => []
       end)
    hs.

(** The hypothesis [k] is one that [_update_children] passes over: a
    target rule, the learner's own [parent_key], or a relation that does
    not hold on the row. *)
Definition passed_over (cfg : config) (row : list value) (k : key) : Prop :=
  is_target (snd k) = true \/
  is_parent_key k (parent_key cfg) = true \/
  reevaluate cfg row k = Ok false.

(** Every failure count lies between 0 and the tolerance (0, for a
    negative tolerance). *)
Definition counts_bounded (l : learner) : Prop :=
  forall k h, In (k, h) (hypotheses l) ->
              0 <= fail h <= Z.max 0 (tolerance (cfg_of l)).

(** The key belongs to the candidate space of the configuration,
    whatever the row: a position of the function list, a strictly
    ascending LHS subset of a size from [min_lhs] to [max_lhs], and a
    constant RHS only from the configured constants. *)
Definition key_in_space (cfg : config) (k : key) : Prop :=
  let '(fn_index, lhs_subset, r) := k in
  (fn_index < length (functions cfg))%nat /\
  StronglySorted lt lhs_subset /\
  min_lhs cfg <= Z.of_nat (length lhs_subset) <= max_lhs cfg /\
  match r with
  | RConstant c => In c (constants cfg)
  | _ => True
  end.

Definition keys_in_space (l : learner) : Prop :=
  forall k h, In (k, h) (hypotheses l) -> key_in_space (cfg_of l) k.

(** A child holds the functions, constants and knobs of its owner. *)
Definition inherits (l : learner) : Prop :=
  forall k h c, In (k, h) (hypotheses l) -> child h = Some c ->
                functions (cfg_of c) = functions (cfg_of l) /\
                constants (cfg_of c) = constants (cfg_of l) /\
                min_lhs (cfg_of c) = min_lhs (cfg_of l) /\
                max_lhs (cfg_of c) = max_lhs (cfg_of l) /\
                tolerance (cfg_of c) = tolerance (cfg_of l).

(** The count of a key after [n] more rounds in which it does not
    pass. *)
Definition after_failures (tolerance : Z) (n : nat) (count : option Z)
  : option Z :=
  match count with
  | None => None
  | Some f =>
      match n with
      | O => Some f
      | S _ => if f + Z.of_nat n <=? tolerance
               then Some (f + Z.of_nat n) else None
      end
  end.

(** The number of [r]-element subsets of [n] columns. *)
Fixpoint choose (n r : nat) : nat :=
  match r with
  | O => 1%nat
  | S r' =>
      match n with
      | O => O
      | S n' => (choose n' r' + choose n' r)%nat
      end
  end.

(** The number of LHS subsets enumerated for a row of [n] columns. *)
Definition subset_count (cfg : config) (n : nat) : nat :=
  list_sum (map (fun size : Z => choose n (Z.to_nat size))
                (range (min_lhs cfg) (max_lhs cfg + 1))).

(** The number of feature RHS candidates: every column but the target
    one, when [target_index] names a column from the front. *)
Definition feature_count (n : nat) (target_index : Z) : nat :=
  let targeted := (0 <=? target_index) && (target_index <? Z.of_nat n) in
  (n - (if targeted then 1 else 0))%nat.

(** ** More relation functions of the tests *)

(** The integer a number stands for in a comparison; [None] stands for
    none, and comparing it raises [TypeError]. *)
Definition num_of (v : value) : option Z :=
  match v with
  | VNone => None
  | VBool b => Some (int_of_bool b)
  | VInt z => Some z
  end.

(** [a > b]. *)
Definition py_gt (a b : value) : option bool :=
  match num_of a, num_of b with
  | Some x, Some y => Some (y <? x)
  | _, _ => None
  end.

(** [max(lhs)] from the second element on: the running maximum [m] is
    replaced by an element that is greater. *)
Fixpoint max_from (m : value) (rest : list value) : outcome :=
  match rest with
  | [] => Returns m
  | x :: r =>
      match py_gt x m with
      | None => Throws TypeError
      | Some true => max_from x r
      | Some false => max_from m r
      end
  end.

(** [max(lhs)]; [ValueError] on an empty tuple. *)
Definition py_max (lhs : list value) : outcome :=
  match lhs with
  | [] => Throws ValueError
  | x :: r => max_from x r
  end.

Fixpoint min_from (m : value) (rest : list value) : outcome :=
  match rest with
  | [] => Returns m
  | x :: r =>
      match py_gt m x with
      | None => Throws TypeError
      | Some true => min_from x r
      | Some false => min_from m r
      end
  end.

(** [min(lhs)]. *)
Definition py_min (lhs : list value) : outcome :=
  match lhs with
  | [] => Throws ValueError
  | x :: r => min_from x r
  end.

(** [def greater_than(lhs, rhs=None): m = max(lhs);
     return m if rhs is None else (m > rhs)]. *)
Definition greater_than : relfn := fun lhs rhs =>
  match py_max lhs with
  | Throws e => Throws e
  | Returns m =>
      if rhs_is_none rhs then Returns m
      else match py_gt m (rhs_or_none rhs) with
           | None => Throws TypeError
           | Some b => Returns (VBool b)
           end
  end.

(** [def less_than(lhs, rhs=None): mn = min(lhs);
     return mn if rhs is None else (mn < rhs)]. *)
Definition less_than : relfn := fun lhs rhs =>
  match py_min lhs with
  | Throws e => Throws e
  | Returns m =>
      if rhs_is_none rhs then Returns m
      else match py_gt (rhs_or_none rhs) m with
           | None => Throws TypeError
           | Some b => Returns (VBool b)
           end
  end.

(** The training rows [[x, y, x + y]] with the target in the last
    column. *)
Definition sum_rows (pairs : list (Z * Z)) : list (list value * Z) :=
  map (fun p : Z * Z =>
         ([VInt (fst p); VInt (snd p); VInt (fst p + snd p)], 2)) pairs.

(** * Properties *)

(** ** Key equality is an equivalence *)

Lemma value_eqb_norm (a b : value) :
  value_eqb a b = true <-> norm_value a = norm_value b.
Proof.
  destruct a as [|x|x], b as [|y|y]; simpl;
    try (split; intro H; [reflexivity || discriminate | reflexivity || discriminate]).
  - destruct x, y; simpl; split; intro H; try reflexivity; discriminate.
  - rewrite Z.eqb_eq. split; [congruence | intros [= H]; exact H].
  - rewrite Z.eqb_eq. split; [congruence | intros [= H]; exact H].
  - rewrite Z.eqb_eq. split; [congruence | intros [= H]; exact H].
Qed.

Lemma rhs_eqb_norm (a b : rhs) :
  rhs_eqb a b = true <-> norm_rhs a = norm_rhs b.
Proof.
  destruct a as [|i|c], b as [|j|d]; simpl; split; intro H;
    try reflexivity; try discriminate.
  - apply Nat.eqb_eq in H. subst. reflexivity.
  - inversion H. apply Nat.eqb_eq. reflexivity.
  - apply value_eqb_norm in H. rewrite H. reflexivity.
  - inversion H. apply value_eqb_norm. assumption.
Qed.

Lemma subset_eqb_eq (a b : list nat) : subset_eqb a b = true <-> a = b.
Proof.
  revert b. induction a as [|x a IH]; intros [|y b]; simpl; split; intro H;
    try reflexivity; try discriminate.
  - apply andb_true_iff in H. destruct H as [H1 H2].
    apply Nat.eqb_eq in H1. apply IH in H2. subst. reflexivity.
  - inversion H; subst. rewrite Nat.eqb_refl. simpl. apply IH. reflexivity.
Qed.

Lemma key_eqb_norm (a b : key) :
  key_eqb a b = true <-> norm_key a = norm_key b.
Proof.
  destruct a as [[f1 s1] r1], b as [[f2 s2] r2]. simpl.
  rewrite !andb_true_iff, Nat.eqb_eq, subset_eqb_eq, rhs_eqb_norm.
  split.
  - intros [[-> ->] ->]. reflexivity.
  - intro H. inversion H. auto.
Qed.

Lemma key_eqb_refl (k : key) : key_eqb k k = true.
Proof. apply key_eqb_norm. reflexivity. Qed.

Lemma key_eqb_sym (a b : key) : key_eqb a b = key_eqb b a.
Proof.
  destruct (key_eqb a b) eqn:E1, (key_eqb b a) eqn:E2; try reflexivity.
  - apply key_eqb_norm in E1. symmetry in E1. apply key_eqb_norm in E1.
    congruence.
  - apply key_eqb_norm in E2. symmetry in E2. apply key_eqb_norm in E2.
    congruence.
Qed.

Lemma key_eqb_trans (a b c : key) :
  key_eqb a b = true -> key_eqb b c = true -> key_eqb a c = true.
Proof.
  rewrite !key_eqb_norm. congruence.
Qed.

(** Equal keys are interchangeable on either side of [key_eqb]. *)
Lemma key_eqb_congr_r (a b c : key) :
  key_eqb b c = true -> key_eqb a b = key_eqb a c.
Proof.
  intro H. destruct (key_eqb a b) eqn:E1, (key_eqb a c) eqn:E2;
    try reflexivity.
  - rewrite (key_eqb_trans a b c E1 H) in E2. discriminate.
  - rewrite key_eqb_sym in H.
    rewrite (key_eqb_trans a c b E2 H) in E1. discriminate.
Qed.

Lemma key_eqb_target (a b : key) :
  key_eqb a b = true -> is_target (snd a) = is_target (snd b).
Proof.
  destruct a as [[f1 s1] r1], b as [[f2 s2] r2]. simpl.
  rewrite !andb_true_iff. intros [_ H].
  destruct r1, r2; simpl in *; try reflexivity; discriminate.
Qed.

(** ** Dictionary lemmas *)

Section DictFacts.
Context {V : Type}.
Implicit Types (d : dict V) (k : key) (v : V).

Lemma dict_get_congr d k k' :
  key_eqb k k' = true -> dict_get d k = dict_get d k'.
Proof.
  intro H. induction d as [|[k0 v0] r IH]; simpl; [reflexivity|].
  rewrite (key_eqb_congr_r k0 k k' H). rewrite IH. reflexivity.
Qed.

Lemma dict_get_set_same d k k' v :
  key_eqb k k' = true -> dict_get (dict_set d k v) k' = Some v.
Proof.
  intro H. induction d as [|[k0 v0] r IH]; simpl.
  - rewrite H. reflexivity.
  - destruct (key_eqb k0 k) eqn:E; simpl.
    + rewrite <- (key_eqb_congr_r k0 k k' H), E. reflexivity.
    + rewrite <- (key_eqb_congr_r k0 k k' H), E. exact IH.
Qed.

Lemma dict_get_set_other d k k' v :
  key_eqb k k' = false -> dict_get (dict_set d k v) k' = dict_get d k'.
Proof.
  intro H. induction d as [|[k0 v0] r IH]; simpl.
  - rewrite H. reflexivity.
  - destruct (key_eqb k0 k) eqn:E; simpl.
    + destruct (key_eqb k0 k') eqn:E'; [|reflexivity].
      rewrite key_eqb_sym in E.
      rewrite (key_eqb_trans k k0 k' E E') in H. discriminate.
    + destruct (key_eqb k0 k'); [reflexivity | exact IH].
Qed.

Lemma dict_get_In d k v :
  dict_get d k = Some v -> exists k0, In (k0, v) d /\ key_eqb k0 k = true.
Proof.
  induction d as [|[k0 v0] r IH]; simpl; [discriminate|].
  destruct (key_eqb k0 k) eqn:E.
  - intros [= ->]. exists k0. auto.
  - intro H. destruct (IH H) as [k1 [H1 H2]]. exists k1. auto.
Qed.

Lemma dict_In_mem d k v : In (k, v) d -> dict_get d k <> None.
Proof.
  induction d as [|[k0 v0] r IH]; simpl; [tauto|].
  intros [E|Hin].
  - inversion E; subst. rewrite key_eqb_refl. discriminate.
  - destruct (key_eqb k0 k); [discriminate | auto].
Qed.

Lemma dict_set_In d k v k' v' :
  In (k', v') (dict_set d k v) ->
  (v' = v /\ key_eqb k' k = true) \/ In (k', v') d.
Proof.
  induction d as [|[k0 v0] r IH]; simpl.
  - intros [E|[]]. inversion E; subst. left. split; [reflexivity|].
    apply key_eqb_refl.
  - destruct (key_eqb k0 k) eqn:E; simpl.
    + intros [E'|Hin]; [|auto]. inversion E'; subst. auto.
    + intros [E'|Hin]; [auto|]. destruct (IH Hin) as [H|H]; auto.
Qed.

Lemma dict_ok_set d k v : dict_ok d -> dict_ok (dict_set d k v).
Proof.
  induction d as [|[k0 v0] r IH]; simpl.
  - auto.
  - intros [Hn Hok]. destruct (key_eqb k0 k) eqn:E; simpl.
    + auto.
    + split; [|auto]. rewrite dict_get_set_other; [assumption|].
      rewrite key_eqb_sym. assumption.
Qed.
End DictFacts.

(** ** Induction over the tree of learners *)

Lemma learner_induction (P : learner -> Prop) :
  (forall l,
      (forall k h c, In (k, h) (hypotheses l) -> child h = Some c -> P c) ->
      P l) ->
  forall l, P l.
Proof.
  intro step. fix IH 1. intros [cfg hyps]. apply step. simpl.
  induction hyps as [|[k0 [f0 c0]] rest IHrest]; intros k h c Hin Hc.
  - destruct Hin.
  - destruct c0 as [c0|].
    + assert (P c0) as Hc0 by apply IH.
      destruct Hin as [E|Hin]; [|exact (IHrest k h c Hin Hc)].
      inversion E; subst. simpl in Hc. inversion Hc; subst. exact Hc0.
    + destruct Hin as [E|Hin]; [|exact (IHrest k h c Hin Hc)].
      inversion E; subst. simpl in Hc. discriminate.
Qed.

Lemma descendant_trans (a b c : learner) :
  descendant a b -> descendant b c -> descendant a c.
Proof.
  intros Hab Hbc. induction Hbc.
  - exact Hab.
  - eapply desc_child; eauto.
Qed.

Lemma everywhere_intro (P : learner -> Prop) (l : learner) :
  P l ->
  (forall k h c, In (k, h) (hypotheses l) -> child h = Some c ->
                 everywhere P c) ->
  everywhere P l.
Proof.
  intros Hl Hc l' Hd. inversion Hd; subst.
  - exact Hl.
  - eapply Hc; eauto.
Qed.

Lemma everywhere_here (P : learner -> Prop) (l : learner) :
  everywhere P l -> P l.
Proof. intro H. apply H. constructor. Qed.

Lemma everywhere_child (P : learner -> Prop) (l c : learner) k h :
  everywhere P l -> In (k, h) (hypotheses l) -> child h = Some c ->
  everywhere P c.
Proof.
  intros H Hin Hc l' Hd. apply H. eapply desc_child; eauto.
Qed.

Lemma everywhere_new (P : learner -> Prop) (cfg : config) :
  P (new_learner cfg) -> everywhere P (new_learner cfg).
Proof.
  intro H. apply everywhere_intro; [exact H|]. simpl. intros k h c [].
Qed.

(** ** [on] is the method of the source, calling itself *)

Lemma on_with_one_argument self (l : learner) (x : pyobj) :
  on_with self l [x] = arity_error l.
Proof. reflexivity. Qed.

Lemma on_unfold (l : learner) (args : list pyobj) :
  on l args = on_with on l args.
Proof. reflexivity. Qed.

(** ** [predict] leaves the tree as it found it *)

Lemma predict_unfold (cfg : config) hyps (row : list value) :
  predict (Learner cfg hyps) row =
  (let '(hyps', res) := predict_hyps predict cfg row hyps [] in
   (Learner cfg hyps', res)).
Proof. reflexivity. Qed.

Lemma predict_hyps_unchanged self cfg row hs :
  (forall k h c, In (k, h) hs -> child h = Some c -> fst (self c row) = c) ->
  forall out, fst (predict_hyps self cfg row hs out) = hs.
Proof.
  induction hs as [|[[[fi S] r] [f c]] rest IH]; intros Hself out.
  - reflexivity.
  - simpl.
    assert (forall out, fst (predict_hyps self cfg row rest out) = rest)
      as IH' by (apply IH; intros; eapply Hself; eauto using in_cons).
    destruct (fn_get (functions cfg) fi) as [fn|e]; simpl; [|reflexivity].
    destruct (lhs_values_of row S) as [vals|e]; simpl; [|reflexivity].
    destruct r as [|i|v].
    + specialize (IH' (if is_none (try_except (call fn vals None) VNone)
                       then out
                       else out ++ [try_except (call fn vals None) VNone])).
      destruct (predict_hyps self cfg row rest _) as [rest' res].
      simpl in *. congruence.
    + destruct (rhs_value_of row (RFeature i)) as [rv|e]; [|reflexivity].
      destruct c as [c|].
      * destruct (holds (call fn vals (Some rv))).
        -- assert (fst (self c row) = c) as Hc
             by (eapply Hself; [left; reflexivity | reflexivity]).
           destruct (self c row) as [c' [ys|e]]; simpl in Hc; subst c'.
           ++ specialize (IH' (out ++ ys)).
              destruct (predict_hyps self cfg row rest _) as [rest' res].
              simpl in *. congruence.
           ++ reflexivity.
        -- specialize (IH' out).
           destruct (predict_hyps self cfg row rest _) as [rest' res].
           simpl in *. congruence.
      * specialize (IH' out).
        destruct (predict_hyps self cfg row rest _) as [rest' res].
        simpl in *. congruence.
    + destruct (rhs_value_of row (RConstant v)) as [rv|e]; [|reflexivity].
      destruct c as [c|].
      * destruct (holds (call fn vals (Some rv))).
        -- assert (fst (self c row) = c) as Hc
             by (eapply Hself; [left; reflexivity | reflexivity]).
           destruct (self c row) as [c' [ys|e]]; simpl in Hc; subst c'.
           ++ specialize (IH' (out ++ ys)).
              destruct (predict_hyps self cfg row rest _) as [rest' res].
              simpl in *. congruence.
           ++ reflexivity.
        -- specialize (IH' out).
           destruct (predict_hyps self cfg row rest _) as [rest' res].
           simpl in *. congruence.
      * specialize (IH' out).
        destruct (predict_hyps self cfg row rest _) as [rest' res].
        simpl in *. congruence.
Qed.

(** C10. [predict] is read-only: the learner it leaves behind - the
    hypothesis map, every failure count and child, and the configuration
    of every learner of the tree - is the learner it was called on. *)
Theorem predict_read_only (l : learner) (row : list value) :
  fst (predict l row) = l.
Proof.
  induction l as [l IH] using learner_induction.
  destruct l as [cfg hyps]. rewrite predict_unfold.
  pose proof (predict_hyps_unchanged predict cfg row hyps IH []) as H.
  destruct (predict_hyps predict cfg row hyps []) as [hyps' res].
  simpl in *. congruence.
Qed.

(** ** What one training call does to the entries of the map *)

Lemma carried_congr old k k' h :
  key_eqb k k' = true -> carried old k h -> carried old k' h.
Proof.
  intros E [H|(k0 & h0 & Hin & Ek & Hc)]; [left; exact H|].
  right. exists k0, h0. split; [exact Hin|]. split; [|exact Hc].
  eapply key_eqb_trans; eauto.
Qed.

Lemma renew_carried old row t cands :
  forall acc d,
    (forall k h, In (k, h) acc -> carried old k h) ->
    renew old row t cands acc = Ok d ->
    forall k h, In (k, h) d -> carried old k h.
Proof.
  induction cands as [|c rest IH]; simpl; intros acc d Hacc Hd.
  - inversion Hd; subst. exact Hacc.
  - destruct (evaluate row t c) as [passed|e]; simpl in Hd; [|discriminate].
    eapply IH; [|exact Hd].
    destruct passed; [|exact Hacc].
    intros k h Hin. apply dict_set_In in Hin.
    destruct Hin as [[-> Ek]|Hin]; [|auto].
    rewrite key_eqb_sym in Ek. apply (carried_congr old (c_key c)); [exact Ek|].
    destruct (dict_get old (c_key c)) as [h0|] eqn:G.
    + apply dict_get_In in G. destruct G as (k0 & Hin & Ek0).
      right. exists k0, h0. auto.
    + left. reflexivity.
Qed.

Lemma age_carried tolerance old0 old :
  (forall k h, In (k, h) old -> In (k, h) old0) ->
  forall acc,
    (forall k h, In (k, h) acc -> carried old0 k h) ->
    forall k h, In (k, h) (fold_left (age_one tolerance) old acc) ->
                carried old0 k h.
Proof.
  induction old as [|[k1 h1] rest IH]; simpl; intros Hsub acc Hacc.
  - exact Hacc.
  - apply IH; [intros; apply Hsub; auto|].
    destruct (dict_mem acc k1); [exact Hacc|].
    destruct (fail h1 + 1 <=? tolerance); [|exact Hacc].
    intros k h Hin. apply dict_set_In in Hin.
    destruct Hin as [[-> Ek]|Hin]; [|auto].
    right. exists k1, h1. split; [apply Hsub; auto|].
    split; [rewrite key_eqb_sym; exact Ek|]. simpl. auto.
Qed.

(** Every entry of the map that [on] assigns to [self.hypotheses] is
    new or carried over from the old map. *)
Lemma retained_carried l row t d :
  retained l row t = Ok d ->
  forall k h, In (k, h) d -> carried (hypotheses l) k h.
Proof.
  unfold retained. intro H.
  destruct (enumerate_hypotheses (cfg_of l) row t) as [cands|e];
    simpl in H; [|discriminate].
  destruct (renew (hypotheses l) row t cands []) as [d1|e] eqn:R;
    simpl in H; [|discriminate].
  inversion H; subst. apply age_carried; [auto|].
  eapply renew_carried; [|exact R]. intros k h [].
Qed.

(** The loop of [_update_children] keeps keys and failure counts; an
    entry's child changes only by the creation of a fresh child, for a
    hypothesis that is not a target rule, is not the learner's own
    [parent_key], and holds on the row. *)
Lemma refresh_entries self cfg row t hyps :
  (forall c args, fst (self c args) = c) ->
  forall k h', In (k, h') (fst (refresh self cfg row t hyps)) ->
  exists h, In (k, h) hyps /\ fail h' = fail h /\
    (h' = h \/
     (is_target (snd k) = false /\
      is_parent_key k (parent_key cfg) = false /\
      reevaluate cfg row k = Ok true /\
      child h' = Some (child_or_new cfg k h))).
Proof.
  intro Hself. induction hyps as [|[k1 h1] rest IH]; simpl; intros k h' Hin.
  - destruct Hin.
  - assert (forall h1' r, refresh_one self cfg row t k1 h1 = (h1', r) ->
              fail h1' = fail h1 /\
              (h1' = h1 \/
               (is_target (snd k1) = false /\
                is_parent_key k1 (parent_key cfg) = false /\
                reevaluate cfg row k1 = Ok true /\
                child h1' = Some (child_or_new cfg k1 h1)))) as Hone.
    { unfold refresh_one. intros h1' r.
      destruct (is_target (snd k1)) eqn:Et; [intros [= <- <-]; auto|].
      destruct (is_parent_key k1 (parent_key cfg)) eqn:Ep;
        [intros [= <- <-]; auto|].
      destruct (reevaluate cfg row k1) as [[|]|e] eqn:Er;
        try (intros [= <- <-]; auto).
      pose proof (Hself (child_or_new cfg k1 h1) [Context row t]) as Hc.
      destruct (self _ [Context row t]) as [c' r'] eqn:Es.
      simpl in Hc. subst c'. intros [= <- <-]. simpl.
      split; [reflexivity|]. right. auto. }
    destruct (refresh_one self cfg row t k1 h1) as [h1' [u|e]] eqn:E1.
    + destruct (refresh self cfg row t rest) as [rest' r] eqn:E2.
      simpl in Hin, IH. destruct Hin as [E|Hin].
      * inversion E; subst. exists h1. split; [auto|].
        exact (Hone h' (Ok u) eq_refl).
      * destruct (IH k h' Hin) as (h & Hh & Hrest). exists h. auto.
    + simpl in Hin. destruct Hin as [E|Hin].
      * inversion E; subst. exists h1. split; [auto|].
        exact (Hone h' (Raise e) eq_refl).
      * exists h'. auto.
Qed.

Lemma arity_error_fst (c : learner) (args : list pyobj) :
  fst ((fun c (_ : list pyobj) => arity_error c) c args) = c.
Proof. reflexivity. Qed.

Lemma update_children_cfg self l row t :
  cfg_of (fst (update_children self l row t)) = cfg_of l.
Proof.
  unfold update_children.
  destruct (max_depth (cfg_of l) <=? 0); [reflexivity|].
  destruct (refresh self (cfg_of l) row t (hypotheses l)). reflexivity.
Qed.

(** [on] never changes the configuration. *)
Lemma on_cfg l args : cfg_of (fst (on l args)) = cfg_of l.
Proof.
  unfold on, on_with. destruct args as [|ctx [|gi [|]]]; try reflexivity.
  unfold on_body. destruct ctx as [row t|]; [|reflexivity].
  destruct (retained l row t) as [d|e]; [|reflexivity].
  rewrite update_children_cfg. reflexivity.
Qed.

(** The entries after a call of [on]: each is carried over with its
    child, is new without a child, or has just been given a freshly
    constructed child. *)
Lemma on_entries l args k h' :
  In (k, h') (hypotheses (fst (on l args))) ->
  (exists k0 h, In (k0, h) (hypotheses l) /\ key_eqb k0 k = true /\
                child h' = child h) \/
  child h' = None \/
  (0 < max_depth (cfg_of l) /\
   is_target (snd k) = false /\
   is_parent_key k (parent_key (cfg_of l)) = false /\
   child h' = Some (new_learner (child_config (cfg_of l) k))).
Proof.
  assert (In (k, h') (hypotheses l) ->
          exists k0 h, In (k0, h) (hypotheses l) /\ key_eqb k0 k = true /\
                       child h' = child h) as Hsame.
  { intro H. exists k, h'. split; [exact H|]. split; [|reflexivity].
    apply key_eqb_refl. }
  unfold on, on_with. destruct args as [|ctx [|gi [|]]]; simpl; auto.
  unfold on_body. destruct ctx as [row t|]; simpl; auto.
  destruct (retained l row t) as [d|e] eqn:R; simpl; auto.
  assert (forall k h, In (k, h) d ->
            (exists k0 h0, In (k0, h0) (hypotheses l) /\
                           key_eqb k0 k = true /\ child h = child h0) \/
            child h = None) as Hd.
  { intros k1 h1 Hin. destruct (retained_carried l row t d R k1 h1 Hin)
      as [->|(k0 & h0 & Hin0 & Ek & Hc & _)].
    - right. reflexivity.
    - left. exists k0, h0. auto. }
  unfold update_children. simpl.
  destruct (max_depth (cfg_of l) <=? 0) eqn:Ed; simpl.
  - intro Hin. destruct (Hd k h' Hin); auto.
  - pose proof (refresh_entries (fun c _ => arity_error c) (cfg_of l) row t d
                  arity_error_fst k h') as Hr.
    destruct (refresh _ (cfg_of l) row t d) as [hyps r]. simpl in *.
    intro Hin. destruct (Hr Hin) as (h & Hh & _ & [->|(Et & Ep & _ & Hc)]).
    + destruct (Hd k h Hh); auto.
    + unfold child_or_new in Hc.
      destruct (Hd k h Hh) as [(k0 & h0 & Hin0 & Ek & Hc0)|Hn].
      * destruct (child h) as [c|] eqn:Ec.
        -- left. exists k0, h0. rewrite Hc, <- Hc0. auto.
        -- right. right. apply Z.leb_gt in Ed. auto.
      * rewrite Hn in Hc. right. right. apply Z.leb_gt in Ed. auto.
Qed.

(** ** Invariants kept by training *)

Lemma everywhere_on (P : learner -> Prop) l args :
  (forall cfg, P (new_learner cfg)) ->
  P (fst (on l args)) ->
  everywhere P l -> everywhere P (fst (on l args)).
Proof.
  intros Hnew Hroot Hall. apply everywhere_intro; [exact Hroot|].
  intros k h' c Hin Hc.
  destruct (on_entries l args k h' Hin)
    as [(k0 & h & Hin0 & _ & Hch)|[Hn|(_ & _ & _ & Hch)]].
  - eapply everywhere_child; [exact Hall | exact Hin0 | congruence].
  - congruence.
  - rewrite Hch in Hc. inversion Hc; subst. apply everywhere_new. apply Hnew.
Qed.

Lemma train_all_invariant (I : learner -> Prop) :
  (forall l args, I l -> I (fst (on l args))) ->
  forall examples l, I l -> I (train_all l examples).
Proof.
  intros Hstep examples. unfold train_all.
  induction examples as [|[row t] rest IH]; simpl; intros l Hl.
  - exact Hl.
  - apply IH. apply Hstep. exact Hl.
Qed.

Lemma train_all_cfg examples l : cfg_of (train_all l examples) = cfg_of l.
Proof.
  revert l. unfold train_all.
  induction examples as [|[row t] rest IH]; simpl; intro l; [reflexivity|].
  rewrite IH. apply on_cfg.
Qed.

Lemma is_parent_key_congr k k' p :
  key_eqb k k' = true -> is_parent_key k p = is_parent_key k' p.
Proof.
  intro E. destruct p as [p|]; simpl; [|reflexivity].
  rewrite (key_eqb_sym k p), (key_eqb_sym k' p).
  apply key_eqb_congr_r. exact E.
Qed.

Lemma target_terminal_on l args :
  target_terminal l -> target_terminal (fst (on l args)).
Proof.
  intros H k h' Hin Ht.
  destruct (on_entries l args k h' Hin)
    as [(k0 & h & Hin0 & Ek & Hch)|[Hn|(_ & Hnt & _)]].
  - rewrite Hch. apply (H k0 h Hin0).
    rewrite (key_eqb_target k0 k Ek). exact Ht.
  - exact Hn.
  - congruence.
Qed.

Lemma keyed_children_on l args :
  keyed_children l -> keyed_children (fst (on l args)).
Proof.
  intros H k h' c Hin Hc.
  destruct (on_entries l args k h' Hin)
    as [(k0 & h & Hin0 & Ek & Hch)|[Hn|(_ & _ & _ & Hch)]].
  - rewrite <- (is_parent_key_congr k0 k _ Ek).
    apply (H k0 h c Hin0). congruence.
  - congruence.
  - rewrite Hch in Hc. inversion Hc; subst. simpl. apply key_eqb_refl.
Qed.

Lemma self_guarded_on l args :
  self_guarded l -> self_guarded (fst (on l args)).
Proof.
  intros H k h' Hin Hp. rewrite on_cfg in Hp.
  destruct (on_entries l args k h' Hin)
    as [(k0 & h & Hin0 & Ek & Hch)|[Hn|(_ & _ & Hnp & _)]].
  - rewrite Hch. apply (H k0 h Hin0).
    rewrite (is_parent_key_congr k0 k _ Ek). exact Hp.
  - exact Hn.
  - congruence.
Qed.

Lemma budgeted_on l args : budgeted l -> budgeted (fst (on l args)).
Proof.
  intros H k h' c Hin Hc. rewrite on_cfg.
  destruct (on_entries l args k h' Hin)
    as [(k0 & h & Hin0 & Ek & Hch)|[Hn|(Hd & _ & _ & Hch)]].
  - apply (H k0 h c Hin0). congruence.
  - congruence.
  - rewrite Hch in Hc. inversion Hc; subst. simpl. auto.
Qed.

Lemma childless_on l args :
  max_depth (cfg_of l) <= 0 -> childless l -> childless (fst (on l args)).
Proof.
  intros Hd H k h' Hin.
  destruct (on_entries l args k h' Hin)
    as [(k0 & h & Hin0 & Ek & Hch)|[Hn|(Hpos & _)]].
  - rewrite Hch. exact (H k0 h Hin0).
  - exact Hn.
  - lia.
Qed.

(** A local invariant that [on] keeps and every fresh learner has holds
    throughout every tree that training builds. *)
Lemma trained_everywhere (P : learner -> Prop) :
  (forall cfg, P (new_learner cfg)) ->
  (forall l args, P l -> P (fst (on l args))) ->
  forall cfg examples,
    everywhere P (train_all (new_learner cfg) examples).
Proof.
  intros Hnew Hstep cfg examples.
  apply (train_all_invariant (everywhere P)).
  - intros l args Hl. apply everywhere_on; [exact Hnew| |exact Hl].
    apply Hstep. apply everywhere_here. exact Hl.
  - apply everywhere_new. apply Hnew.
Qed.

(** ** The height of a budgeted tree *)

Lemma height_hyps_le (n : nat) hs :
  (forall k h c, In (k, h) hs -> child h = Some c -> (S (height c) <= n)%nat) ->
  (height_hyps height hs <= n)%nat.
Proof.
  induction hs as [|[k [f [c|]]] rest IH]; intro H;
    [simpl; lia | | simpl].
  - change (Nat.max (S (height c)) (height_hyps height rest) <= n)%nat.
    apply Nat.max_lub.
    + apply (H k (HState f (Some c)) c); [left; reflexivity | reflexivity].
    + apply IH. intros; eapply H; [right|]; eauto.
  - apply IH. intros; eapply H; [right|]; eauto.
Qed.

Lemma height_unfold l : height l = height_hyps height (hypotheses l).
Proof. destruct l. reflexivity. Qed.

Lemma budgeted_height l :
  everywhere budgeted l ->
  Z.of_nat (height l) <= Z.max 0 (max_depth (cfg_of l)).
Proof.
  induction l as [l IH] using learner_induction. intro Hall.
  rewrite height_unfold.
  assert (height_hyps height (hypotheses l)
          <= Z.to_nat (Z.max 0 (max_depth (cfg_of l))))%nat; [|lia].
  apply height_hyps_le. intros k h c Hin Hc.
  destruct (everywhere_here _ _ Hall k h c Hin Hc) as [Hpos Hdec].
  specialize (IH k h c Hin Hc (everywhere_child _ _ _ _ _ Hall Hin Hc)).
  lia.
Qed.

Lemma descendant_budget l' l :
  everywhere budgeted l -> descendant l' l ->
  everywhere budgeted l' /\
  (l' = l \/ max_depth (cfg_of l') < max_depth (cfg_of l)).
Proof.
  intros Hall Hd. induction Hd.
  - auto.
  - destruct (everywhere_here _ _ Hall k h c H H0) as [Hpos Hdec].
    destruct (IHHd (everywhere_child _ _ _ _ _ Hall H H0)) as [Hb [->|Hlt]].
    + split; [exact Hb|]. right. lia.
    + split; [exact Hb|]. right. lia.
Qed.

(** ** Recursion descends only through owned children *)

(** The loop of [predict] consults the method only on the children of
    the hypotheses it iterates over, and with the same row. *)
Lemma predict_hyps_ext self1 self2 cfg row hs :
  (forall k h c, In (k, h) hs -> child h = Some c ->
                 self1 c row = self2 c row) ->
  forall out,
    predict_hyps self1 cfg row hs out = predict_hyps self2 cfg row hs out.
Proof.
  induction hs as [|[[[fi S] r] [f c]] rest IH]; intros Hself out.
  - reflexivity.
  - assert (forall out, predict_hyps self1 cfg row rest out =
                        predict_hyps self2 cfg row rest out) as IH'
      by (apply IH; intros; eapply Hself; eauto using in_cons).
    simpl.
    destruct (fn_get (functions cfg) fi) as [fn|e]; simpl; [|reflexivity].
    destruct (lhs_values_of row S) as [vals|e]; simpl; [|reflexivity].
    destruct r as [|i|v]; rewrite ?IH'; try reflexivity.
    + destruct (rhs_value_of row (RFeature i)) as [rv|e]; [|reflexivity].
      destruct c as [c|]; rewrite ?IH'; [|reflexivity].
      rewrite (Hself _ _ c (or_introl eq_refl) eq_refl).
      destruct (holds _); [|reflexivity].
      destruct (self2 c row) as [c' [ys|e]]; rewrite ?IH'; reflexivity.
    + destruct (rhs_value_of row (RConstant v)) as [rv|e]; [|reflexivity].
      destruct c as [c|]; rewrite ?IH'; [|reflexivity].
      rewrite (Hself _ _ c (or_introl eq_refl) eq_refl).
      destruct (holds _); [|reflexivity].
      destruct (self2 c row) as [c' [ys|e]]; rewrite ?IH'; reflexivity.
Qed.

(** The loop of [_update_children] consults the method only on the
    child (existing or just created) of a hypothesis it iterates over. *)
Lemma refresh_ext self1 self2 cfg row t hyps :
  (forall k h, In (k, h) hyps ->
               self1 (child_or_new cfg k h) [Context row t] =
               self2 (child_or_new cfg k h) [Context row t]) ->
  refresh self1 cfg row t hyps = refresh self2 cfg row t hyps.
Proof.
  induction hyps as [|[k h] rest IH]; intro Hself; [reflexivity|].
  simpl. unfold refresh_one.
  rewrite (Hself k h (or_introl eq_refl)).
  rewrite IH by (intros; apply Hself; right; assumption).
  reflexivity.
Qed.

(** ** The enumeration *)

Lemma ascending_sorted lo hi s :
  ascending lo hi s <->
  StronglySorted lt s /\ Forall (fun i => lo <= i < hi)%nat s.
Proof.
  revert lo. induction s as [|x s IH]; intro lo; simpl.
  - split; [intros _; split; constructor | tauto].
  - rewrite IH. split.
    + intros [Hx [Hs Hf]]. split.
      * constructor; [exact Hs|].
        eapply Forall_impl; [|exact Hf]. simpl. intros; lia.
      * constructor; [exact Hx|].
        eapply Forall_impl; [|exact Hf]. simpl. intros; lia.
    + intros [Hs Hf]. inversion Hs; subst. inversion Hf; subst.
      split; [assumption|]. split; [assumption|].
      rewrite Forall_forall in *. intros y Hy.
      specialize (H2 y Hy). specialize (H4 y Hy). simpl in *. lia.
Qed.

Lemma combinations_seq n :
  forall a r s,
    In s (combinations (seq a n) r) <->
    length s = r /\ ascending a (a + n) s.
Proof.
  induction n as [|n IH]; intros a r s.
  - simpl. destruct r as [|r]; simpl.
    + split.
      * intros [<-|[]]. simpl. auto.
      * intros [Hl _]. destruct s; [auto | discriminate].
    + split; [tauto|]. intros [Hl Ha].
      destruct s as [|x s]; [discriminate|]. simpl in Ha. lia.
  - destruct r as [|r].
    + simpl. split.
      * intros [<-|[]]. simpl. auto.
      * intros [Hl _]. destruct s; [auto | discriminate].
    + change (combinations (seq a (S n)) (S r))
        with (map (cons a) (combinations (seq (S a) n) r)
              ++ combinations (seq (S a) n) (S r)).
      rewrite in_app_iff, in_map_iff. split.
      * intros [(s' & <- & Hin)|Hin].
        -- apply IH in Hin. destruct Hin as [Hl Ha]. simpl.
           split; [congruence|]. split; [lia|].
           replace (a + S n)%nat with (S a + n)%nat by lia. exact Ha.
        -- apply IH in Hin. destruct Hin as [Hl Ha]. split; [exact Hl|].
           destruct s as [|x s]; [discriminate|]. simpl in *.
           replace (a + S n)%nat with (S (a + n)) by lia.
           split; [lia | tauto].
      * intros [Hl Ha]. destruct s as [|x s]; [discriminate|].
        simpl in Hl, Ha. destruct Ha as [Hx Ha].
        replace (a + S n)%nat with (S a + n)%nat in * by lia.
        destruct (Nat.eq_dec x a) as [->|Hne].
        -- left. exists s. split; [reflexivity|]. apply IH.
           split; [lia | exact Ha].
        -- right. apply IH. split; [simpl; lia|]. simpl.
           split; [lia | exact Ha].
Qed.

Lemma concat_result_spec {A B} (f : A -> result (list B)) (g : A -> list B)
    (l : list A) :
  (forall x, In x l -> f x = Ok (g x)) ->
  concat_result f l = Ok (flat_map g l).
Proof.
  induction l as [|x r IH]; simpl; intro H; [reflexivity|].
  rewrite (H x) by auto. simpl. rewrite IH by auto. reflexivity.
Qed.

Lemma row_get_in_range (row : list value) (i : nat) :
  (i < length row)%nat -> row_get row (Z.of_nat i) = Ok (nth i row VNone).
Proof.
  intro H. unfold row_get.
  destruct (Z.of_nat i <? 0) eqn:E; [apply Z.ltb_lt in E; lia|].
  replace (0 <=? Z.of_nat i) with true by (symmetry; apply Z.leb_le; lia).
  replace (Z.of_nat i <? Z.of_nat (length row)) with true
    by (symmetry; apply Z.ltb_lt; lia).
  simpl. rewrite Nat2Z.id.
  destruct (nth_error row i) as [v|] eqn:N.
  - rewrite (nth_error_nth _ _ _ N). reflexivity.
  - apply nth_error_None in N. lia.
Qed.

Lemma lhs_values_of_in_range (row : list value) (s : list nat) :
  Forall (fun i => i < length row)%nat s ->
  lhs_values_of row s = Ok (map (fun i => nth i row VNone) s).
Proof.
  unfold lhs_values_of. induction s as [|i s IH]; intro H; [reflexivity|].
  inversion H; subst. simpl. rewrite row_get_in_range by assumption.
  simpl. rewrite IH by assumption. reflexivity.
Qed.

Lemma range_In lo hi x : In x (range lo hi) <-> lo <= x < hi.
Proof.
  unfold range. rewrite in_map_iff. split.
  - intros (i & <- & Hi). apply in_seq in Hi. lia.
  - intro H. exists (Z.to_nat (x - lo)). split; [lia|].
    apply in_seq. lia.
Qed.

Lemma enumerate_In {A} (l : list A) (i : nat) (x : A) :
  In (i, x) (enumerate l) <-> nth_error l i = Some x.
Proof.
  unfold enumerate.
  assert (forall a, In (i, x) (combine (seq a (length l)) l) <->
                    (a <= i)%nat /\ nth_error l (i - a) = Some x) as H.
  { induction l as [|y l IH]; intro a; simpl.
    - split; [tauto|]. intros [_ H]. destruct (i - a)%nat; discriminate.
    - rewrite IH. split.
      + intros [E|[Hle Hn]].
        * inversion E; subst. rewrite Nat.sub_diag. auto.
        * split; [lia|]. replace (i - a)%nat with (S (i - S a)) by lia.
          exact Hn.
      + intros [Hle Hn]. destruct (Nat.eq_dec i a) as [->|Hne].
        * rewrite Nat.sub_diag in Hn. simpl in Hn. inversion Hn. auto.
        * right. split; [lia|].
          replace (i - a)%nat with (S (i - S a)) in Hn by lia. exact Hn. }
  rewrite H, Nat.sub_0_r. split; [tauto | intro; split; [lia | assumption]].
Qed.

Lemma rhs_candidates_In cfg row t r :
  In r (rhs_candidates cfg row t) <-> rhs_in_space cfg row t r.
Proof.
  unfold rhs_candidates. rewrite !in_app_iff, !in_map_iff. simpl. split.
  - intros [[<-|[]]|[([i v] & <- & Hin)|(c & <- & Hin)]]; simpl; auto.
    apply filter_In in Hin. destruct Hin as [Hin Hne]. simpl in Hne.
    apply enumerate_In in Hin. split.
    + apply nth_error_Some. congruence.
    + apply negb_true_iff, Z.eqb_neq in Hne. exact Hne.
  - destruct r as [|i|c]; simpl.
    + auto.
    + intros [Hlt Hne]. right. left.
      destruct (nth_error row i) as [v|] eqn:N;
        [|apply nth_error_None in N; lia].
      exists (i, v). split; [reflexivity|]. apply filter_In.
      split; [apply enumerate_In; exact N|]. simpl.
      apply negb_true_iff, Z.eqb_neq. exact Hne.
    + intro Hin. right. right. exists c. auto.
Qed.

(** The candidates of one LHS subset, as a list. *)
Lemma candidates_of_subset_spec cfg row t s :
  Forall (fun i => i < length row)%nat s ->
  candidates_of_subset cfg row t s =
  Ok (flat_map
        (fun ifn : nat * relfn =>
           map (fun r => Candidate (fst ifn, s, r) (snd ifn) s
                                   (map (fun i => nth i row VNone) s) r)
               (rhs_candidates cfg row t))
        (enumerate (functions cfg))).
Proof.
  intro H. unfold candidates_of_subset.
  rewrite lhs_values_of_in_range by exact H. reflexivity.
Qed.

Lemma combinations_in_range (n r : nat) (s : list nat) :
  In s (combinations (seq 0 n) r) -> Forall (fun i => i < n)%nat s.
Proof.
  intro H. apply combinations_seq in H. destruct H as [_ H].
  apply ascending_sorted in H. destruct H as [_ H].
  eapply Forall_impl; [|exact H]. simpl. intros; lia.
Qed.

(** With a non-negative [min_lhs] the enumeration raises nothing, and
    yields the candidates below. *)
Lemma enumerate_hypotheses_spec cfg row t :
  0 <= min_lhs cfg ->
  enumerate_hypotheses cfg row t =
  Ok (flat_map
        (fun size : Z =>
           flat_map
             (fun s =>
                flat_map
                  (fun ifn : nat * relfn =>
                     map (fun r => Candidate (fst ifn, s, r) (snd ifn) s
                                     (map (fun i => nth i row VNone) s) r)
                         (rhs_candidates cfg row t))
                  (enumerate (functions cfg)))
             (combinations (seq 0 (length row)) (Z.to_nat size)))
        (range (min_lhs cfg) (max_lhs cfg + 1))).
Proof.
  intro Hmin. unfold enumerate_hypotheses.
  apply concat_result_spec. intros size Hsize.
  apply range_In in Hsize. unfold combinations_z.
  destruct (size <? 0) eqn:E; [apply Z.ltb_lt in E; lia|]. simpl.
  apply concat_result_spec. intros s Hs.
  apply candidates_of_subset_spec.
  eapply combinations_in_range. exact Hs.
Qed.

Lemma enumerated_keys cfg row t cands :
  0 <= min_lhs cfg ->
  enumerate_hypotheses cfg row t = Ok cands ->
  forall c, In c cands <->
    exists fn,
      nth_error (functions cfg) (fst (fst (c_key c))) = Some fn /\
      ascending 0 (length row) (c_lhs_subset c) /\
      min_lhs cfg <= Z.of_nat (length (c_lhs_subset c)) <= max_lhs cfg /\
      rhs_in_space cfg row t (c_rhs c) /\
      c = Candidate (fst (fst (c_key c)), c_lhs_subset c, c_rhs c) fn
                    (c_lhs_subset c)
                    (map (fun i => nth i row VNone) (c_lhs_subset c))
                    (c_rhs c).
Proof.
  intros Hmin Hen c.
  pose proof (enumerate_hypotheses_spec cfg row t Hmin) as Hspec.
  rewrite Hen in Hspec.
  pose proof (rhs_candidates_In cfg row t) as HR.
  set (rc := rhs_candidates cfg row t) in *. clearbody rc.
  injection Hspec as ->.
  rewrite in_flat_map. split.
  - intros (size & Hsize & Hc). apply range_In in Hsize.
    apply in_flat_map in Hc. destruct Hc as (s & Hs & Hc).
    apply in_flat_map in Hc. destruct Hc as ([fi fn] & Hfn & Hc).
    apply in_map_iff in Hc. destruct Hc as (r & <- & Hr). simpl.
    apply combinations_seq in Hs. destruct Hs as [Hlen Hasc].
    apply enumerate_In in Hfn. apply HR in Hr.
    exists fn. repeat split; try assumption; lia.
  - intros (fn & Hfn & Hasc & Hlen & Hr & Hc).
    exists (Z.of_nat (length (c_lhs_subset c))).
    split; [apply range_In; lia|].
    apply in_flat_map. exists (c_lhs_subset c). split.
    + apply combinations_seq. rewrite Nat2Z.id. auto.
    + apply in_flat_map. exists (fst (fst (c_key c)), fn). split.
      * apply enumerate_In. exact Hfn.
      * apply in_map_iff. exists (c_rhs c). split; [auto|].
        apply HR. exact Hr.
Qed.

(** ** The retained map, key by key *)

Section DictKeys.
Context {V W : Type}.

Lemma dict_get_none_keys (d1 : dict V) (d2 : dict W) k :
  map fst d1 = map fst d2 ->
  (dict_get d1 k = None <-> dict_get d2 k = None).
Proof.
  revert d2. induction d1 as [|[k1 v1] r1 IH]; intros [|[k2 v2] r2] H;
    simpl in *; try discriminate; [tauto|].
  inversion H; subst. destruct (key_eqb k2 k).
  - split; discriminate.
  - apply IH. assumption.
Qed.

Lemma dict_ok_keys (d1 : dict V) (d2 : dict W) :
  map fst d1 = map fst d2 -> dict_ok d1 -> dict_ok d2.
Proof.
  revert d2. induction d1 as [|[k1 v1] r1 IH]; intros [|[k2 v2] r2] H;
    simpl in *; try discriminate; [tauto|].
  inversion H; subst. intros [Hn Hok]. split.
  - apply (dict_get_none_keys r1 r2 k2); assumption.
  - apply IH; assumption.
Qed.
End DictKeys.

Lemma row_get_valid row t :
  valid_index row t -> exists y, row_get row t = Ok y.
Proof.
  unfold valid_index, row_get. intro H.
  set (j := if t <? 0 then t + Z.of_nat (length row) else t).
  assert (0 <= j < Z.of_nat (length row)) as Hj.
  { unfold j. destruct (t <? 0) eqn:E.
    - apply Z.ltb_lt in E. lia.
    - apply Z.ltb_ge in E. lia. }
  replace (0 <=? j) with true by (symmetry; apply Z.leb_le; lia).
  replace (j <? Z.of_nat (length row)) with true
    by (symmetry; apply Z.ltb_lt; lia).
  simpl. destruct (nth_error row (Z.to_nat j)) as [v|] eqn:N.
  - eauto.
  - apply nth_error_None in N. lia.
Qed.

Lemma evaluate_valid row t c :
  valid_index row t -> exists b, evaluate row t c = Ok b.
Proof.
  intro H. unfold evaluate. destruct (c_rhs c); eauto.
  destruct (row_get_valid row t H) as [y ->]. simpl. eauto.
Qed.

(** The state object a passing candidate is stored with. *)
Lemma renew_get old row t cands :
  (forall c, In c cands -> exists b, evaluate row t c = Ok b) ->
  forall acc, exists d,
    renew old row t cands acc = Ok d /\
    (dict_ok acc -> dict_ok d) /\
    forall k,
      dict_get d k =
      if existsb (fun c => key_eqb (c_key c) k &&
                           match evaluate row t c with
                           | Ok b => b
                           | Raise _ => false
                           end) cands
      then Some (match dict_get old k with
                 | Some h => h
                 | None => fresh_hstate
                 end)
      else dict_get acc k.
Proof.
  induction cands as [|c rest IH]; intros Hev acc.
  - exists acc. simpl. auto.
  - destruct (Hev c (or_introl eq_refl)) as [b Hb].
    simpl. rewrite Hb. simpl.
    destruct (IH (fun c' H => Hev c' (or_intror H))
                 (if b
                  then dict_set acc (c_key c)
                         match dict_get old (c_key c) with
                         | Some h => h
                         | None => fresh_hstate
                         end
                  else acc)) as (d & Hd & Hok & Hget).
    exists d. split; [exact Hd|]. split.
    + intro Hacc. apply Hok. destruct b; [apply dict_ok_set|]; exact Hacc.
    + intro k. rewrite Hget.
      destruct (existsb _ rest); [rewrite orb_true_r; reflexivity|].
      rewrite orb_false_r.
      destruct (key_eqb (c_key c) k) eqn:Ek; simpl.
      * destruct b; [|reflexivity].
        rewrite dict_get_set_same by exact Ek.
        rewrite (dict_get_congr old (c_key c) k Ek). reflexivity.
      * destruct b; [|reflexivity].
        rewrite dict_get_set_other by exact Ek. reflexivity.
Qed.

Lemma age_ok tolerance old acc :
  dict_ok acc -> dict_ok (fold_left (age_one tolerance) old acc).
Proof.
  revert acc. induction old as [|[k h] rest IH]; simpl; intros acc Hacc.
  - exact Hacc.
  - apply IH. destruct (dict_mem acc k); [exact Hacc|].
    destruct (fail h + 1 <=? tolerance); [apply dict_ok_set|]; exact Hacc.
Qed.

(** An old hypothesis that was not renewed is kept, one failure more,
    when that stays within the tolerance. *)
Lemma age_get tolerance old :
  dict_ok old ->
  forall acc k,
    dict_get (fold_left (age_one tolerance) old acc) k =
    match dict_get acc k with
    | Some v => Some v
    | None =>
        match dict_get old k with
        | Some h =>
            if fail h + 1 <=? tolerance
            then Some (HState (fail h + 1) (child h))
            else None
        | None => None
        end
    end.
Proof.
  induction old as [|[k1 h1] rest IH]; simpl; intros Hok acc k.
  - destruct (dict_get acc k); reflexivity.
  - destruct Hok as [Hn Hok]. rewrite (IH Hok). clear IH.
    unfold dict_mem.
    destruct (key_eqb k1 k) eqn:Ek.
    + rewrite <- (dict_get_congr rest k1 k Ek), Hn.
      rewrite <- (dict_get_congr acc k1 k Ek).
      destruct (dict_get acc k1) as [v|] eqn:G.
      * rewrite (dict_get_congr acc k1 k Ek) in G. rewrite G. reflexivity.
      * destruct (fail h1 + 1 <=? tolerance).
        -- rewrite dict_get_set_same by exact Ek. reflexivity.
        -- rewrite (dict_get_congr acc k1 k Ek) in G. rewrite G. reflexivity.
    + destruct (dict_get acc k1) as [v|] eqn:G; [reflexivity|].
      destruct (fail h1 + 1 <=? tolerance); [|reflexivity].
      rewrite dict_get_set_other by exact Ek. reflexivity.
Qed.

Lemma refresh_one_fail self cfg row t k h :
  fail (fst (refresh_one self cfg row t k h)) = fail h.
Proof.
  unfold refresh_one.
  destruct (is_target (snd k)); [reflexivity|].
  destruct (is_parent_key k (parent_key cfg)); [reflexivity|].
  destruct (reevaluate cfg row k) as [[|]|e]; try reflexivity.
  destruct (self _ _). reflexivity.
Qed.

(** [_update_children] changes neither the keys nor the failure
    counts. *)
Lemma refresh_keys self cfg row t hyps :
  map fst (fst (refresh self cfg row t hyps)) = map fst hyps.
Proof.
  induction hyps as [|[k h] rest IH]; simpl; [reflexivity|].
  destruct (refresh_one self cfg row t k h) as [h' [u|e]].
  - destruct (refresh self cfg row t rest) as [rest' r]. simpl in *.
    rewrite IH. reflexivity.
  - reflexivity.
Qed.

Lemma refresh_fail self cfg row t hyps k :
  option_map fail (dict_get (fst (refresh self cfg row t hyps)) k) =
  option_map fail (dict_get hyps k).
Proof.
  induction hyps as [|[k1 h1] rest IH]; simpl; [reflexivity|].
  pose proof (refresh_one_fail self cfg row t k1 h1) as Hf.
  destruct (refresh_one self cfg row t k1 h1) as [h' [u|e]]; simpl in Hf.
  - destruct (refresh self cfg row t rest) as [rest' r]. simpl in *.
    destruct (key_eqb k1 k); [simpl; congruence | exact IH].
  - simpl. destruct (key_eqb k1 k); [simpl; congruence | reflexivity].
Qed.

Lemma update_children_fail self l row t k :
  failure_count (fst (update_children self l row t)) k = failure_count l k.
Proof.
  unfold update_children, failure_count.
  destruct (max_depth (cfg_of l) <=? 0); [reflexivity|].
  pose proof (refresh_fail self (cfg_of l) row t (hypotheses l) k) as H.
  destruct (refresh self (cfg_of l) row t (hypotheses l)). exact H.
Qed.

Lemma update_children_ok self l row t :
  dict_ok (hypotheses l) ->
  dict_ok (hypotheses (fst (update_children self l row t))).
Proof.
  unfold update_children. intro H.
  destruct (max_depth (cfg_of l) <=? 0); [exact H|].
  pose proof (refresh_keys self (cfg_of l) row t (hypotheses l)) as Hk.
  destruct (refresh self (cfg_of l) row t (hypotheses l)). simpl in *.
  eapply dict_ok_keys; [symmetry; exact Hk | exact H].
Qed.

Lemma retained_ok l row t d :
  retained l row t = Ok d -> dict_ok d.
Proof.
  unfold retained.
  destruct (enumerate_hypotheses (cfg_of l) row t) as [cands|e];
    simpl; [|discriminate].
  destruct (renew (hypotheses l) row t cands []) as [d1|e] eqn:R;
    simpl; [|discriminate].
  intros [= <-]. apply age_ok.
  clear -R. revert R.
  assert (dict_ok (@nil (key * hstate learner))) as H0 by exact I.
  revert H0. generalize (@nil (key * hstate learner)) as acc. revert d1.
  induction cands as [|c rest IH]; simpl; intros d1 acc Hacc R.
  - inversion R; subst. exact Hacc.
  - destruct (evaluate row t c) as [b|e]; simpl in R; [|discriminate].
    eapply IH; [|exact R]. destruct b; [apply dict_ok_set|]; exact Hacc.
Qed.

(** The hypothesis map of a learner is a well-formed dictionary, kept
    so by [on]. *)
Lemma on_dict_ok l args :
  dict_ok (hypotheses l) -> dict_ok (hypotheses (fst (on l args))).
Proof.
  intro H. unfold on, on_with. destruct args as [|ctx [|gi [|]]]; try exact H.
  unfold on_body. destruct ctx as [row t|]; [|exact H].
  destruct (retained l row t) as [d|e] eqn:R; [|exact H].
  apply update_children_ok. simpl. eapply retained_ok. exact R.
Qed.

Lemma trained_dict_ok cfg examples :
  dict_ok (hypotheses (train_all (new_learner cfg) examples)).
Proof.
  apply (train_all_invariant (fun l => dict_ok (hypotheses l))).
  - intros l args. apply on_dict_ok.
  - exact I.
Qed.

(** One training call, seen from one key. *)
Lemma train_step l row t k :
  dict_ok (hypotheses l) ->
  0 <= min_lhs (cfg_of l) ->
  valid_index row t ->
  failure_count (fst (train l row t)) k =
  tolerance_step (tolerance (cfg_of l)) (failure_count l k)
                 (passes (cfg_of l) row t k).
Proof.
  intros Hok Hmin Hvalid.
  unfold train, on, on_with, on_body.
  assert (exists d, retained l row t = Ok d /\
            forall k, option_map fail (dict_get d k) =
                      tolerance_step (tolerance (cfg_of l))
                        (failure_count l k) (passes (cfg_of l) row t k))
    as (d & Hd & Hget).
  { unfold retained, passes.
    rewrite (enumerate_hypotheses_spec (cfg_of l) row t Hmin). simpl.
    match goal with |- context [renew _ _ _ ?cs []] => set (cands := cs) end.
    destruct (renew_get (hypotheses l) row t cands
                (fun c _ => evaluate_valid row t c Hvalid) [])
      as (d1 & Hd1 & _ & Hget1).
    rewrite Hd1. simpl. eexists. split; [reflexivity|].
    intro k0. unfold age. rewrite (age_get _ _ Hok), Hget1.
    unfold failure_count.
    destruct (existsb _ cands); simpl.
    - destruct (dict_get (hypotheses l) k0); reflexivity.
    - destruct (dict_get (hypotheses l) k0) as [h|]; simpl; [|reflexivity].
      destruct (fail h + 1 <=? tolerance (cfg_of l)); reflexivity. }
  rewrite Hd. rewrite update_children_fail. unfold failure_count. simpl.
  apply Hget.
Qed.

(** ** No exception of a relation function leaves [on] or [predict] *)

















(** ** A raising relation function counts as one that returned
       [False] or [None] *)









Section SwallowDict.
Variable sw : learner -> learner.






End SwallowDict.








(** ** The keys a learner tracks fit the rows it was trained on *)

Lemma concat_result_inv {A B} (f : A -> result (list B)) l ys y :
  concat_result f l = Ok ys -> In y ys ->
  exists x zs, In x l /\ f x = Ok zs /\ In y zs.
Proof.
  revert ys. induction l as [|x r IH]; simpl; intros ys H Hy.
  - inversion H; subst. destruct Hy.
  - destruct (f x) as [zs|e] eqn:Hf; simpl in H; [|discriminate].
    destruct (concat_result f r) as [ws|e]; simpl in H; [|discriminate].
    inversion H; subst. apply in_app_iff in Hy. destruct Hy as [Hy|Hy].
    + exists x, zs. auto.
    + destruct (IH ws eq_refl Hy) as (x' & zs' & Hx & Hf' & Hy').
      exists x', zs'. auto.
Qed.

Lemma enumerated_fits cfg row t cands c :
  enumerate_hypotheses cfg row t = Ok cands -> In c cands ->
  key_fits cfg (length row) (c_key c).
Proof.
  unfold enumerate_hypotheses. intros H Hc.
  destruct (concat_result_inv _ _ _ _ H Hc) as (size & cs & _ & Hsize & Hc1).
  unfold combinations_z in Hsize.
  destruct (size <? 0); simpl in Hsize; [discriminate|].
  destruct (concat_result_inv _ _ _ _ Hsize Hc1) as (s & cs2 & Hs & Hcs & Hc2).
  apply combinations_in_range in Hs.
  rewrite (candidates_of_subset_spec cfg row t s Hs) in Hcs.
  pose proof (rhs_candidates_In cfg row t) as HR.
  set (rc := rhs_candidates cfg row t) in *. clearbody rc.
  injection Hcs as <-.
  apply in_flat_map in Hc2. destruct Hc2 as ([fi fn] & Hfn & Hc2).
  apply in_map_iff in Hc2. destruct Hc2 as (r & <- & Hr). simpl.
  apply enumerate_In in Hfn. apply HR in Hr.
  split; [apply nth_error_Some; congruence|]. split; [exact Hs|].
  destruct r; simpl in *; tauto.
Qed.

Lemma dict_set_key {V} (d : dict V) k v k' v' :
  In (k', v') (dict_set d k v) -> k' = k \/ In k' (map fst d).
Proof.
  induction d as [|[k0 v0] r IH]; simpl.
  - intros [E|[]]. inversion E. auto.
  - destruct (key_eqb k0 k); simpl.
    + intros [E|Hin]; [inversion E; auto|].
      right. right. apply in_map_iff. exists (k', v'). auto.
    + intros [E|Hin]; [inversion E; auto|].
      destruct (IH Hin); auto.
Qed.

Lemma renew_keys old row t cands :
  forall acc d, renew old row t cands acc = Ok d ->
  forall k h, In (k, h) d ->
    In k (map fst acc) \/ exists c, In c cands /\ k = c_key c.
Proof.
  induction cands as [|c rest IH]; simpl; intros acc d Hd k h Hin.
  - inversion Hd; subst. left. apply in_map_iff. exists (k, h). auto.
  - destruct (evaluate row t c) as [b|e]; simpl in Hd; [|discriminate].
    destruct (IH _ _ Hd k h Hin) as [Hk|(c' & Hc' & ->)].
    + destruct b; [|auto].
      apply in_map_iff in Hk. destruct Hk as ([k1 h1] & <- & Hin1).
      destruct (dict_set_key _ _ _ _ _ Hin1) as [->|Hk]; [|auto].
      right. exists c. auto.
    + right. exists c'. auto.
Qed.

Lemma age_keys tolerance old :
  forall acc k h, In (k, h) (fold_left (age_one tolerance) old acc) ->
    In k (map fst acc) \/ In k (map fst old).
Proof.
  induction old as [|[k1 h1] rest IH]; simpl; intros acc k h Hin.
  - left. apply in_map_iff. exists (k, h). auto.
  - destruct (IH _ k h Hin) as [Hk|Hk]; [|auto].
    destruct (dict_mem acc k1); [auto|].
    destruct (fail h1 + 1 <=? tolerance); [|auto].
    apply in_map_iff in Hk. destruct Hk as ([k2 h2] & <- & Hin2).
    destruct (dict_set_key _ _ _ _ _ Hin2) as [->|Hk]; auto.
Qed.

Lemma retained_keys l row t d k h :
  retained l row t = Ok d -> In (k, h) d ->
  In k (map fst (hypotheses l)) \/
  exists cands c,
    enumerate_hypotheses (cfg_of l) row t = Ok cands /\
    In c cands /\ k = c_key c.
Proof.
  unfold retained. intros H Hin.
  destruct (enumerate_hypotheses (cfg_of l) row t) as [cands|e];
    simpl in H; [|discriminate].
  destruct (renew (hypotheses l) row t cands []) as [d1|e] eqn:R;
    simpl in H; [|discriminate].
  inversion H; subst.
  destruct (age_keys _ _ _ _ _ Hin) as [Hk|Hk]; [|auto].
  apply in_map_iff in Hk. destruct Hk as ([k1 h1] & <- & Hin1).
  destruct (renew_keys _ _ _ _ _ _ R k1 h1 Hin1) as [[]|(c & Hc & ->)].
  right. exists cands, c. auto.
Qed.

Lemma fits_on n l row t gi :
  length row = n -> fits n l ->
  fits n (fst (on l [Context row t; gi])).
Proof.
  intros Hn Hl k h Hin. rewrite on_cfg.
  assert (forall k, In k (map fst (hypotheses l)) ->
                    key_fits (cfg_of l) n k) as Hold.
  { intros k0 Hk. apply in_map_iff in Hk.
    destruct Hk as ([k1 h1] & <- & Hin1). exact (Hl k1 h1 Hin1). }
  revert Hin. unfold on, on_with, on_body.
  destruct (retained l row t) as [d|e] eqn:R; [|apply Hl].
  unfold update_children. simpl.
  assert (forall k h, In (k, h) d -> key_fits (cfg_of l) n k) as Hd.
  { intros k0 h0 Hin0.
    destruct (retained_keys l row t d k0 h0 R Hin0)
      as [Hk|(cands & c & Hen & Hc & ->)]; [auto|].
    rewrite <- Hn. eapply enumerated_fits; eauto. }
  destruct (max_depth (cfg_of l) <=? 0); [apply Hd|].
  pose proof (refresh_keys (fun c _ => arity_error c) (cfg_of l) row t d)
    as Hk.
  destruct (refresh _ (cfg_of l) row t d) as [hyps r]. simpl in *.
  intro Hin. assert (In k (map fst hyps)) as Hin'
    by (apply in_map_iff; exists (k, h); auto).
  rewrite Hk in Hin'. apply in_map_iff in Hin'.
  destruct Hin' as ([k1 h1] & <- & Hin1). exact (Hd k1 h1 Hin1).
Qed.

(** After training on rows of [n] columns, every key of the tree fits
    rows of [n] columns. *)
Lemma trained_fits n cfg examples :
  Forall (fun ex : list value * Z => length (fst ex) = n) examples ->
  everywhere (fits n) (train_all (new_learner cfg) examples).
Proof.
  intro Hall. unfold train_all.
  assert (everywhere (fits n) (new_learner cfg)) as H0
    by (apply everywhere_new; intros k h []).
  revert H0. generalize (new_learner cfg) as l.
  induction Hall as [|[row t] rest Hrow Hrest IH]; simpl; intros l Hl.
  - exact Hl.
  - apply IH. apply everywhere_on.
    + intros c k h [].
    + apply fits_on; [exact Hrow|]. apply everywhere_here. exact Hl.
    + exact Hl.
Qed.

(** ** [predict] returns, and what it returns *)

Lemma fits_readable cfg row k :
  key_fits cfg (length row) k ->
  exists fn vals rv,
    fn_get (functions cfg) (fst (fst k)) = Ok fn /\
    lhs_values_of row (snd (fst k)) = Ok vals /\
    rhs_value_of row (snd k) = Ok rv.
Proof.
  destruct k as [[fi s] r]. simpl. intros (Hfi & Hs & Hr).
  unfold fn_get.
  destruct (nth_error (functions cfg) fi) as [fn|] eqn:N;
    [|apply nth_error_None in N; lia].
  rewrite (lhs_values_of_in_range row s Hs).
  destruct r as [|i|c]; simpl.
  - exists fn, (map (fun i => nth i row VNone) s), VNone. auto.
  - rewrite (row_get_in_range row i Hr).
    exists fn, (map (fun i => nth i row VNone) s), (nth i row VNone). auto.
  - exists fn, (map (fun i => nth i row VNone) s), c. auto.
Qed.

Lemma predict_hyps_total self cfg row hs :
  (forall k h, In (k, h) hs -> key_fits cfg (length row) k) ->
  (forall k h c, In (k, h) hs -> child h = Some c ->
                 exists ys, snd (self c row) = Ok ys) ->
  forall out, exists out', snd (predict_hyps self cfg row hs out) = Ok out'.
Proof.
  induction hs as [|[[[fi s] r] [f c]] rest IH]; intros Hfit Hself out.
  - simpl. eauto.
  - assert (forall out, exists out',
               snd (predict_hyps self cfg row rest out) = Ok out') as IH'
      by (apply IH; intros; [eapply Hfit | eapply Hself]; eauto using in_cons).
    destruct (fits_readable cfg row _ (Hfit _ _ (or_introl eq_refl)))
      as (fn & vals & rv & Hfn & Hv & Hr).
    simpl in Hfn, Hv, Hr. simpl. rewrite Hfn, Hv. simpl.
    assert (forall out h0, exists out',
               snd (let '(rest', res) := predict_hyps self cfg row rest out
                    in ((fi, s, r, h0) :: rest', res)) = Ok out') as Hrest.
    { intros out0 h0. destruct (IH' out0) as [out' H].
      destruct (predict_hyps self cfg row rest out0). eauto. }
    destruct r as [|i|v].
    + apply Hrest.
    + simpl in Hr. simpl rhs_value_of. rewrite Hr.
      destruct c as [c|]; [|apply Hrest].
      destruct (holds _); [|apply Hrest].
      destruct (Hself _ _ c (or_introl eq_refl) eq_refl) as [ys Hys].
      destruct (self c row) as [c' res]. simpl in Hys. subst res.
      apply Hrest.
    + simpl. destruct c as [c|]; [|apply Hrest].
      destruct (holds _); [|apply Hrest].
      destruct (Hself _ _ c (or_introl eq_refl) eq_refl) as [ys Hys].
      destruct (self c row) as [c' res]. simpl in Hys. subst res.
      apply Hrest.
Qed.

(** [predict] raises nothing on a row as wide as the keys expect. *)
Lemma predict_total l row :
  everywhere (fits (length row)) l ->
  exists out, snd (predict l row) = Ok out.
Proof.
  induction l as [l IH] using learner_induction. intro Hall.
  destruct l as [cfg hyps]. rewrite predict_unfold.
  destruct (predict_hyps_total predict cfg row hyps
              (everywhere_here _ _ Hall)
              (fun k h c Hin Hc =>
                 IH k h c Hin Hc (everywhere_child _ _ _ _ _ Hall Hin Hc)) [])
    as [out H].
  destruct (predict_hyps predict cfg row hyps []). simpl in *. eauto.
Qed.

Lemma yields_tail cfg row k h hs v :
  yields cfg row hs v -> yields cfg row ((k, h) :: hs) v.
Proof.
  intros (fi & s & h0 & fn & vals & Hin & H). exists fi, s, h0, fn, vals.
  split; [right; exact Hin | exact H].
Qed.

Lemma infer_value fn vals :
  is_none (try_except (call fn vals None) VNone) = false ->
  call fn vals None = Ok (try_except (call fn vals None) VNone) /\
  try_except (call fn vals None) VNone <> VNone.
Proof.
  destruct (call fn vals None) as [v|e]; simpl; [|discriminate].
  intro H. split; [reflexivity|]. intros ->. discriminate.
Qed.

(** Every value [predict] returns was yielded, in prediction mode, by a
    target-descriptor hypothesis, here or in a child. *)
Lemma predict_hyps_sound self cfg row (Q : value -> Prop) hs :
  (forall k h c c' ys v,
      In (k, h) hs -> child h = Some c -> self c row = (c', Ok ys) ->
      In v ys -> Q v) ->
  forall out hs' out',
    predict_hyps self cfg row hs out = (hs', Ok out') ->
    forall v, In v out' -> In v out \/ Q v \/ yields cfg row hs v.
Proof.
  induction hs as [|[[[fi s] r] [f c]] rest IH]; intros Hself out hs' out' H v Hv.
  - simpl in H. inversion H; subst. auto.
  - assert (forall out hs' out',
               predict_hyps self cfg row rest out = (hs', Ok out') ->
               forall v, In v out' -> In v out \/ Q v \/ yields cfg row rest v)
      as IH' by (apply IH; intros; eapply Hself; eauto using in_cons).
    assert (forall out0 h0,
      (let '(rest', res) := predict_hyps self cfg row rest out0
       in ((fi, s, r, h0) :: rest', res)) = (hs', Ok out') ->
      In v out0 \/ Q v \/ yields cfg row ((fi, s, r, HState f c) :: rest) v)
      as Hrest.
    { intros out0 h0 E.
      destruct (predict_hyps self cfg row rest out0) as [rest' res] eqn:E0.
      inversion E; subst.
      destruct (IH' _ _ _ E0 v Hv) as [H1|[H1|H1]]; auto.
      right. right. apply yields_tail. exact H1. }
    simpl in H.
    destruct (fn_get (functions cfg) fi) as [fn|e] eqn:Hfn; simpl in H;
      [|discriminate].
    destruct (lhs_values_of row s) as [vals|e] eqn:Hvals; simpl in H;
      [|discriminate].
    destruct r as [|i|c0].
    + destruct (Hrest _ _ H) as [H1|H1]; [|auto].
      destruct (is_none (try_except (call fn vals None) VNone)) eqn:En;
        [auto|].
      apply in_app_iff in H1. destruct H1 as [H1|[<-|[]]]; [auto|].
      right. right. destruct (infer_value fn vals En) as [Hc Hne].
      exists fi, s, (HState f c), fn, vals.
      split; [left; reflexivity|]. auto.
    + destruct (rhs_value_of row (RFeature i)) as [rv|e]; [|discriminate].
      destruct c as [c|]; [|exact (Hrest _ _ H)].
      destruct (holds _); [|exact (Hrest _ _ H)].
      destruct (self c row) as [c' [ys|e]] eqn:Es; [|discriminate].
      destruct (Hrest _ _ H) as [H1|H1]; [|auto].
      apply in_app_iff in H1. destruct H1 as [H1|H1]; [auto|].
      right. left.
      exact (Hself _ _ c c' ys v (or_introl eq_refl) eq_refl Es H1).
    + destruct (rhs_value_of row (RConstant c0)) as [rv|e]; [|discriminate].
      destruct c as [c|]; [|exact (Hrest _ _ H)].
      destruct (holds _); [|exact (Hrest _ _ H)].
      destruct (self c row) as [c' [ys|e]] eqn:Es; [|discriminate].
      destruct (Hrest _ _ H) as [H1|H1]; [|auto].
      apply in_app_iff in H1. destruct H1 as [H1|H1]; [auto|].
      right. left.
      exact (Hself _ _ c c' ys v (or_introl eq_refl) eq_refl Es H1).
Qed.

Lemma predict_sound l row :
  forall out v,
    snd (predict l row) = Ok out -> In v out ->
    exists l', descendant l' l /\ predicted_by l' row v.
Proof.
  induction l as [l IH] using learner_induction. intros out v H Hv.
  destruct l as [cfg hyps]. rewrite predict_unfold in H.
  destruct (predict_hyps predict cfg row hyps []) as [hyps' res] eqn:E.
  simpl in H. subst res.
  destruct (predict_hyps_sound predict cfg row
              (fun v => exists l', descendant l' (Learner cfg hyps) /\
                                   predicted_by l' row v)
              hyps) with (out := @nil value) (hs' := hyps') (out' := out) (v := v)
    as [[]|[H1|H1]].
  - intros k h c c' ys v0 Hin Hc Es Hv0.
    destruct (IH k h c Hin Hc ys v0) as (l' & Hd & Hp);
      [rewrite Es; reflexivity | exact Hv0|].
    exists l'. split; [|exact Hp]. eapply desc_child; eauto.
  - exact E.
  - exact Hv.
  - exact H1.
  - exists (Learner cfg hyps). split; [apply desc_self | exact H1].
Qed.

(** Every value a target-descriptor hypothesis of the learner yields
    is in the list [predict] returns. *)
Lemma predict_hyps_complete self cfg row hs :
  forall out hs' out',
    predict_hyps self cfg row hs out = (hs', Ok out') ->
    forall v, In v out \/ yields cfg row hs v -> In v out'.
Proof.
  induction hs as [|[[[fi s] r] [f c]] rest IH]; intros out hs' out' H v Hv.
  - simpl in H. inversion H; subst.
    destruct Hv as [Hv|(? & ? & ? & ? & ? & [] & _)]. exact Hv.
  - assert (forall out0 h0,
      (let '(rest', res) := predict_hyps self cfg row rest out0
       in ((fi, s, r, h0) :: rest', res)) = (hs', Ok out') ->
      In v out0 \/ yields cfg row rest v -> In v out') as Hrest.
    { intros out0 h0 E.
      destruct (predict_hyps self cfg row rest out0) as [rest' res] eqn:E0.
      inversion E; subst. apply (IH _ _ _ E0). }
    simpl in H.
    destruct (fn_get (functions cfg) fi) as [fn|e] eqn:Hfn; simpl in H;
      [|discriminate].
    destruct (lhs_values_of row s) as [vals|e] eqn:Hvals; simpl in H;
      [|discriminate].
    assert (r <> RTarget -> In v out \/ yields cfg row rest v) as Hother.
    { intro Hr. destruct Hv as [Hv|(fi0 & s0 & h0 & fn0 & vals0 & Hin & Hy)];
        [auto|].
      destruct Hin as [E|Hin]; [inversion E; congruence|].
      right. exists fi0, s0, h0, fn0, vals0. auto. }
    destruct r as [|i|c0].
    + apply (Hrest _ _ H).
      destruct Hv as [Hv|(fi0 & s0 & h0 & fn0 & vals0 & Hin & Hy)].
      * left. destruct (is_none _); [exact Hv|].
        apply in_app_iff. auto.
      * destruct Hin as [E|Hin].
        -- inversion E; subst fi0 s0 h0.
           destruct Hy as (Hfn0 & Hv0 & Hc & Hne).
           rewrite Hfn in Hfn0. rewrite Hvals in Hv0.
           inversion Hfn0; inversion Hv0; subst fn0 vals0.
           rewrite Hc. simpl. left.
           destruct (is_none v) eqn:En;
             [destruct v; try discriminate; congruence|].
           apply in_app_iff. right. left. reflexivity.
        -- right. exists fi0, s0, h0, fn0, vals0. auto.
    + specialize (Hother ltac:(discriminate)).
      destruct (rhs_value_of row (RFeature i)) as [rv|e]; [|discriminate].
      destruct c as [c|]; [|exact (Hrest _ _ H Hother)].
      destruct (holds _); [|exact (Hrest _ _ H Hother)].
      destruct (self c row) as [c' [ys|e]] eqn:Es; [|discriminate].
      apply (Hrest _ _ H). destruct Hother as [Ho|Ho]; [|auto].
      left. apply in_app_iff. auto.
    + specialize (Hother ltac:(discriminate)).
      destruct (rhs_value_of row (RConstant c0)) as [rv|e]; [|discriminate].
      destruct c as [c|]; [|exact (Hrest _ _ H Hother)].
      destruct (holds _); [|exact (Hrest _ _ H Hother)].
      destruct (self c row) as [c' [ys|e]] eqn:Es; [|discriminate].
      apply (Hrest _ _ H). destruct Hother as [Ho|Ho]; [|auto].
      left. apply in_app_iff. auto.
Qed.

Lemma predict_complete l row out v :
  snd (predict l row) = Ok out -> predicted_by l row v -> In v out.
Proof.
  destruct l as [cfg hyps]. rewrite predict_unfold. intros H Hp.
  destruct (predict_hyps predict cfg row hyps []) as [hyps' res] eqn:E.
  simpl in H. subst res.
  apply (predict_hyps_complete predict cfg row hyps [] hyps' out E).
  right. exact Hp.
Qed.

(** ** The recursive call of [on] *)

Lemma untrained_children_on l args :
  untrained_children l -> untrained_children (fst (on l args)).
Proof.
  intros H k h' c Hin Hc.
  destruct (on_entries l args k h' Hin)
    as [(k0 & h & Hin0 & _ & Hch)|[Hn|(_ & _ & _ & Hch)]].
  - apply (H k0 h c Hin0). congruence.
  - congruence.
  - rewrite Hch in Hc. inversion Hc; subst. reflexivity.
Qed.

(** [h["child"].on(Context(row, target_index))] passes one argument to
    a method that takes two ([ctx] and [gi]): the call raises
    [TypeError] before the child's body runs.  So a training call that
    reaches a child raises [TypeError] (after [self.hypotheses] has been
    replaced), and in every trained tree the children are as their
    constructor left them. *)
Theorem child_feed_raises :
  (forall c x, on c [x] = (c, Raise (LearnerFault TypeError))) /\
  (forall cfg examples,
      everywhere untrained_children (train_all (new_learner cfg) examples)) /\
  (let r := train scenario_C [VInt 42; VInt 0] 1 in
   snd r = Raise (LearnerFault TypeError) /\
   map fst (hypotheses (fst r)) =
     [(0%nat, [0%nat], RFeature 0);
      (0%nat, [0%nat], RConstant (VInt 42));
      (0%nat, [1%nat], RTarget)] /\
   map (fun kh => option_map hypotheses (child (snd kh)))
       (hypotheses (fst r)) = [Some []; None; None]).
Proof.
  split; [reflexivity|]. split.
  - intros cfg examples. apply trained_everywhere.
    + intros c k h c0 [].
    + intros l args. apply untrained_children_on.
  - cbv zeta. repeat split; vm_compute; reflexivity.
Qed.

(** The self-nesting guard at work: the learner created under the key
    [(0, (0,), ("feature", 0))] retains that very hypothesis, which holds
    on the row, and gives it no child; the constant-RHS hypothesis next
    to it gets one. *)
Example self_nesting_guard_at_work :
  let l := fst (train scenario_C_nested [VInt 42; VInt 0] 1) in
  reevaluate (cfg_of l) [VInt 42; VInt 0] (0%nat, [0%nat], RFeature 0)
    = Ok true /\
  option_map child (dict_get (hypotheses l) (0%nat, [0%nat], RFeature 0))
    = Some None /\
  option_map (fun h => option_map (fun c => parent_key (cfg_of c)) (child h))
             (dict_get (hypotheses l) (0%nat, [0%nat], RConstant (VInt 42)))
    = Some (Some (Some (0%nat, [0%nat], RConstant (VInt 42)))).
Proof.
  cbv zeta. repeat split; vm_compute; reflexivity.
Qed.

(** The tolerance boundary on the learner of the tolerance test: after
    two failing rounds the sum rule is still there, with failure count
    2, and predicts 15; a third failing round removes it; a later
    passing round brings it back with failure count 0. *)
Example tolerance_boundary :
  let sum_rule : key := (0%nat, [0%nat; 1%nat], RTarget) in
  let l2 := train_all scenario_B rows_B in
  let l3 := fst (train l2 [VInt 1; VInt 1; VInt 999] 2) in
  let l4 := fst (train l3 [VInt 1; VInt 1; VInt 2] 2) in
  failure_count l2 sum_rule = Some 2 /\
  snd (predict l2 [VInt 10; VInt 5; VNone]) = Ok [VInt 15] /\
  failure_count l3 sum_rule = None /\
  snd (predict l3 [VInt 10; VInt 5; VNone]) = Ok [] /\
  failure_count l4 sum_rule = Some 0.
Proof.
  cbv zeta. repeat split; vm_compute; reflexivity.
Qed.

(** ** [predict] on a trained learner *)

Lemma predict_untrained (c : learner) (row : list value) :
  hypotheses c = [] -> predict c row = (c, Ok []).
Proof.
  destruct c as [cfg hs]. simpl. intros ->. reflexivity.
Qed.

Lemma predict_hyps_outputs cfg row hs :
  (forall k h, In (k, h) hs -> key_fits cfg (length row) k) ->
  (forall k h c, In (k, h) hs -> child h = Some c -> hypotheses c = []) ->
  forall out,
    predict_hyps predict cfg row hs out =
    (hs, Ok (out ++ target_outputs cfg row hs)).
Proof.
  induction hs as [|[[[fi s] r] [f c]] rest IH]; intros Hfit Hun out.
  - simpl. rewrite app_nil_r. reflexivity.
  - assert (forall out, predict_hyps predict cfg row rest out =
                        (rest, Ok (out ++ target_outputs cfg row rest)))
      as IH' by (apply IH; intros; [eapply Hfit | eapply Hun];
                 eauto using in_cons).
    destruct (fits_readable cfg row _ (Hfit _ _ (or_introl eq_refl)))
      as (fn & vals & rv & Hfn & Hv & Hr).
    simpl in Hfn, Hv, Hr. unfold target_outputs.
    cbn [predict_hyps flat_map fst]. rewrite Hfn, Hv.
    cbn [bind]. fold (target_outputs cfg row rest).
    destruct r as [|i|v].
    + rewrite IH'. destruct (is_none _); [reflexivity|].
      rewrite <- app_assoc. reflexivity.
    + rewrite Hr. cbn [app].
      destruct c as [c|]; [|rewrite IH'; reflexivity].
      destruct (holds _); [|rewrite IH'; reflexivity].
      rewrite (predict_untrained c row
                 (Hun _ _ c (or_introl eq_refl) eq_refl)).
      rewrite app_nil_r, IH'. reflexivity.
    + cbn [rhs_value_of app].
      destruct c as [c|]; [|rewrite IH'; reflexivity].
      destruct (holds _); [|rewrite IH'; reflexivity].
      rewrite (predict_untrained c row
                 (Hun _ _ c (or_introl eq_refl) eq_refl)).
      rewrite app_nil_r, IH'. reflexivity.
Qed.

Lemma trained_untrained_children cfg examples :
  untrained_children (train_all (new_learner cfg) examples).
Proof.
  apply (train_all_invariant untrained_children).
  - intros l args. apply untrained_children_on.
  - intros k h c [].
Qed.

(** ** The exceptions of [predict] *)

Lemma row_get_fault row i :
  (exists v, row_get row i = Ok v) \/
  row_get row i = Raise (LearnerFault IndexError).
Proof.
  unfold row_get. destruct (_ && _); [|auto].
  destruct (nth_error _ _); eauto.
Qed.

Lemma row_get_nat_ok row (i : nat) v :
  row_get row (Z.of_nat i) = Ok v -> (i < length row)%nat.
Proof.
  unfold row_get.
  destruct (Z.of_nat i <? 0) eqn:E; [apply Z.ltb_lt in E; lia|].
  destruct (0 <=? Z.of_nat i); simpl; [|discriminate].
  destruct (Z.of_nat i <? Z.of_nat (length row)) eqn:E2; [|discriminate].
  apply Z.ltb_lt in E2. lia.
Qed.

Lemma lhs_values_of_fault row s :
  (exists vals, lhs_values_of row s = Ok vals /\
                Forall (fun i => i < length row)%nat s) \/
  lhs_values_of row s = Raise (LearnerFault IndexError).
Proof.
  unfold lhs_values_of. induction s as [|i s IH]; simpl.
  - left. eauto.
  - destruct (row_get_fault row (Z.of_nat i)) as [[v Hv]|Hv];
      rewrite Hv; simpl; [|auto].
    destruct IH as [(vals & -> & Hf) | -> ]; simpl; [|auto].
    left. eexists. split; [reflexivity|].
    constructor; [eapply row_get_nat_ok; eauto | exact Hf].
Qed.

Lemma fn_get_fault fns i :
  (exists fn, fn_get fns i = Ok fn /\ (i < length fns)%nat) \/
  fn_get fns i = Raise (LearnerFault IndexError).
Proof.
  unfold fn_get. destruct (nth_error fns i) as [fn|] eqn:N; [|auto].
  left. exists fn. split; [reflexivity|]. apply nth_error_Some. congruence.
Qed.

Lemma rhs_value_of_fault row r :
  (exists v, rhs_value_of row r = Ok v /\
             match r with RFeature i => (i < length row)%nat | _ => True end) \/
  rhs_value_of row r = Raise (LearnerFault IndexError).
Proof.
  destruct r as [|i|c]; simpl; eauto.
  destruct (row_get_fault row (Z.of_nat i)) as [[v Hv]|Hv]; [|auto].
  left. exists v. split; [exact Hv|]. eapply row_get_nat_ok; eauto.
Qed.

Lemma predict_hyps_faults self cfg row hs :
  (forall k h c, In (k, h) hs -> child h = Some c ->
     match snd (self c row) with
     | Ok _ => True
     | Raise r => r = LearnerFault IndexError
     end) ->
  forall out,
    match snd (predict_hyps self cfg row hs out) with
    | Ok _ => forall k h, In (k, h) hs -> key_fits cfg (length row) k
    | Raise r => r = LearnerFault IndexError
    end.
Proof.
  induction hs as [|[[[fi s] r] [f c]] rest IH]; intros Hself out.
  - simpl. intros k h [].
  - assert (forall out,
      match snd (predict_hyps self cfg row rest out) with
      | Ok _ => forall k h, In (k, h) rest -> key_fits cfg (length row) k
      | Raise r => r = LearnerFault IndexError
      end) as IH'
      by (apply IH; intros; eapply Hself; eauto using in_cons).
    simpl.
    destruct (fn_get_fault (functions cfg) fi) as [(fn & Hfn & Hfi)|Hfn];
      rewrite Hfn; simpl; [|reflexivity].
    destruct (lhs_values_of_fault row s) as [(vals & Hv & Hs)|Hv];
      rewrite Hv; simpl; [|reflexivity].
    assert (forall out0 h0,
      match r with RFeature i => (i < length row)%nat | _ => True end ->
      match snd (let '(rest', res) := predict_hyps self cfg row rest out0
                 in ((fi, s, r, h0) :: rest', res)) with
      | Ok _ => forall k h,
          (fi, s, r, HState f c) = (k, h) \/ In (k, h) rest ->
          key_fits cfg (length row) k
      | Raise r => r = LearnerFault IndexError
      end) as Hrest.
    { intros out0 h0 Hr. specialize (IH' out0).
      destruct (predict_hyps self cfg row rest out0) as [rest' [o|e]];
        simpl in *; [|exact IH'].
      intros k h [E|Hin]; [|eauto]. inversion E; subst. simpl. auto. }
    destruct r as [|i|v].
    + apply Hrest. exact I.
    + destruct (rhs_value_of_fault row (RFeature i)) as [(rv & Hrv & Hi)|Hrv];
        rewrite Hrv; [|reflexivity].
      destruct c as [c|]; [|apply Hrest; exact Hi].
      destruct (holds _); [|apply Hrest; exact Hi].
      pose proof (Hself _ _ c (or_introl eq_refl) eq_refl) as Hc.
      destruct (self c row) as [c' [ys|e]]; simpl in Hc;
        [apply Hrest; exact Hi | exact Hc].
    + simpl rhs_value_of.
      destruct c as [c|]; [|apply Hrest; exact I].
      destruct (holds _); [|apply Hrest; exact I].
      pose proof (Hself _ _ c (or_introl eq_refl) eq_refl) as Hc.
      destruct (self c row) as [c' [ys|e]]; simpl in Hc;
        [apply Hrest; exact I | exact Hc].
Qed.

Lemma predict_faults l row :
  match snd (predict l row) with
  | Ok _ => fits (length row) l
  | Raise r => r = LearnerFault IndexError
  end.
Proof.
  induction l as [l IH] using learner_induction.
  destruct l as [cfg hyps]. rewrite predict_unfold.
  assert (forall k h c, In (k, h) hyps -> child h = Some c ->
     match snd (predict c row) with
     | Ok _ => True
     | Raise r => r = LearnerFault IndexError
     end) as Hc.
  { intros k h c Hin Hch. specialize (IH k h c Hin Hch).
    destruct (snd (predict c row)); [exact I | exact IH]. }
  pose proof (predict_hyps_faults predict cfg row hyps Hc []) as H.
  destruct (predict_hyps predict cfg row hyps []) as [hyps' [o|e]];
    simpl in *; exact H.
Qed.

(** ** When a training call raises *)

Lemma retained_defined l row t :
  0 <= min_lhs (cfg_of l) -> valid_index row t ->
  exists d, retained l row t = Ok d.
Proof.
  intros Hmin Hvalid. unfold retained.
  rewrite (enumerate_hypotheses_spec (cfg_of l) row t Hmin). simpl.
  match goal with |- context [renew _ _ _ ?cs []] => set (cands := cs) end.
  destruct (renew_get (hypotheses l) row t cands
              (fun c _ => evaluate_valid row t c Hvalid) [])
    as (d1 & Hd1 & _). rewrite Hd1. simpl. eauto.
Qed.

Lemma reevaluate_fault cfg row k :
  (exists b, reevaluate cfg row k = Ok b) \/
  reevaluate cfg row k = Raise (LearnerFault IndexError).
Proof.
  destruct k as [[fi s] r]. unfold reevaluate.
  destruct (lhs_values_of_fault row s) as [(vals & -> & _) | -> ];
    simpl; [|auto].
  destruct (fn_get_fault (functions cfg) fi) as [(fn & -> & _) | -> ];
    simpl; [|auto].
  destruct (rhs_value_of_fault row r) as [(rv & -> & _) | -> ];
    simpl; eauto.
Qed.

Lemma refresh_one_outcome cfg row t k h :
  let r := refresh_one (fun c _ => arity_error c) cfg row t k h in
  (passed_over cfg row k /\ r = (h, Ok tt)) \/
  (~ passed_over cfg row k /\
   (snd r = Raise (LearnerFault TypeError) \/
    snd r = Raise (LearnerFault IndexError))).
Proof.
  unfold refresh_one, passed_over. cbv zeta.
  destruct (is_target (snd k)) eqn:Et; [left; auto|].
  destruct (is_parent_key k (parent_key cfg)) eqn:Ep; [left; auto|].
  destruct (reevaluate_fault cfg row k) as [[[|] Hr]|Hr]; rewrite Hr.
  - right. simpl. split; [|auto].
    intros [H|[H|H]]; congruence.
  - left. auto.
  - right. simpl. split; [|auto].
    intros [H|[H|H]]; congruence.
Qed.

(** The loop of [_update_children] completes exactly when it passes
    over every hypothesis, and then it has changed nothing; otherwise it
    raises [TypeError] (at the first hypothesis it would feed) or
    [IndexError] (at the first it cannot read against the row). *)
Lemma refresh_outcome cfg row t hyps :
  let r := refresh (fun c _ => arity_error c) cfg row t hyps in
  (snd r = Ok tt <-> forall k h, In (k, h) hyps -> passed_over cfg row k) /\
  (snd r = Ok tt -> fst r = hyps) /\
  (snd r = Ok tt \/ snd r = Raise (LearnerFault TypeError) \/
   snd r = Raise (LearnerFault IndexError)).
Proof.
  cbv zeta. induction hyps as [|[k h] rest IH].
  - simpl. split; [|auto]. split; [intros _ k h [] | reflexivity].
  - cbn [refresh].
    destruct (refresh_one_outcome cfg row t k h) as [[Hp ->]|[Hn Hr]].
    + destruct (refresh (fun c _ => arity_error c) cfg row t rest)
        as [rest' r]. simpl in *.
      destruct IH as (IH1 & IH2 & IH3).
      split; [|split; [intro E; f_equal; auto | exact IH3]].
      split.
      * intros E k0 h0 [E0|Hin]; [inversion E0; subst; exact Hp|].
        destruct IH1 as [IH1 _]. exact (IH1 E k0 h0 Hin).
      * intro H. destruct IH1 as [_ IH1]. apply IH1.
        intros k0 h0 Hin. apply (H k0 h0). right. exact Hin.
    + destruct (refresh_one (fun c _ => arity_error c) cfg row t k h)
        as [h' [[]|e]]; simpl in Hr.
      * destruct Hr; discriminate.
      * simpl. split; [|split].
        -- split; [intro E; discriminate E|].
           intro H. exfalso. apply Hn. apply (H k h). left. reflexivity.
        -- intro E; discriminate E.
        -- right. exact Hr.
Qed.

Lemma in_keys_iff {V W} (d1 : dict V) (d2 : dict W) (k : key) :
  map fst d1 = map fst d2 ->
  ((exists v, In (k, v) d1) <-> (exists w, In (k, w) d2)).
Proof.
  intro H.
  assert (forall (X : Type) (d : dict X),
             (exists v, In (k, v) d) <-> In k (map fst d)) as Hk.
  { intros X d. rewrite in_map_iff. split.
    - intros [v Hv]. exists (k, v). auto.
    - intros ([k' v] & <- & Hv). exists v. exact Hv. }
  rewrite (Hk V d1), (Hk W d2), H. tauto.
Qed.

(** ** Training calls that raise before [self.hypotheses] is assigned *)

Lemma range_head lo hi :
  lo < hi -> exists rest, range lo hi = lo :: rest.
Proof.
  intro H. unfold range.
  destruct (Z.to_nat (hi - lo)) as [|n] eqn:E; [lia|].
  simpl. rewrite Z.add_0_r. eauto.
Qed.

Lemma combinations_head {A} (l : list A) (r : nat) :
  (r <= length l)%nat -> exists s rest, combinations l r = s :: rest.
Proof.
  revert r. induction l as [|x l IH]; intros [|r] H; simpl in *;
    try (eexists; eexists; reflexivity); [lia|].
  destruct (IH r ltac:(lia)) as (s & rest & ->). simpl. eauto.
Qed.

Lemma row_get_invalid row t :
  ~ valid_index row t -> row_get row t = Raise (LearnerFault IndexError).
Proof.
  unfold valid_index, row_get. intro H.
  destruct (t <? 0) eqn:E.
  - apply Z.ltb_lt in E.
    destruct (0 <=? t + Z.of_nat (length row)) eqn:E1; [|reflexivity].
    apply Z.leb_le in E1. lia.
  - apply Z.ltb_ge in E.
    destruct (0 <=? t); simpl; [|reflexivity].
    destruct (t <? Z.of_nat (length row)) eqn:E2; [|reflexivity].
    apply Z.ltb_lt in E2. lia.
Qed.

(** The first candidate of a non-empty enumeration is a target rule. *)
Lemma enumeration_starts_with_target cfg row t :
  0 <= min_lhs cfg <= max_lhs cfg ->
  min_lhs cfg <= Z.of_nat (length row) ->
  functions cfg <> [] ->
  exists c rest,
    enumerate_hypotheses cfg row t = Ok (c :: rest) /\ c_rhs c = RTarget.
Proof.
  intros [Hmin Hmax] Hlen Hfns.
  rewrite (enumerate_hypotheses_spec cfg row t Hmin).
  destruct (range_head (min_lhs cfg) (max_lhs cfg + 1) ltac:(lia))
    as [sizes ->].
  destruct (combinations_head (seq 0 (length row)) (Z.to_nat (min_lhs cfg)))
    as (s & subsets & Hs); [rewrite length_seq; lia|].
  destruct (functions cfg) as [|fn fns] eqn:Hf; [congruence|].
  cbn [flat_map]. rewrite Hs. cbn [flat_map].
  unfold enumerate. cbn [length seq combine flat_map].
  unfold rhs_candidates. cbn [app map fst snd].
  eexists. eexists. split; [reflexivity|]. reflexivity.
Qed.

(** ** Invariants of the entries *)

Lemma renew_all (Q : hstate learner -> Prop) old row t cands :
  Q fresh_hstate ->
  (forall k h, In (k, h) old -> Q h) ->
  forall acc d,
    (forall k h, In (k, h) acc -> Q h) ->
    renew old row t cands acc = Ok d ->
    forall k h, In (k, h) d -> Q h.
Proof.
  intros Hfresh Hold.
  induction cands as [|c rest IH]; simpl; intros acc d Hacc Hd.
  - inversion Hd; subst. exact Hacc.
  - destruct (evaluate row t c) as [passed|e]; simpl in Hd; [|discriminate].
    eapply IH; [|exact Hd]. destruct passed; [|exact Hacc].
    intros k h Hin. apply dict_set_In in Hin.
    destruct Hin as [[-> _]|Hin]; [|eauto].
    destruct (dict_get old (c_key c)) as [h0|] eqn:G; [|exact Hfresh].
    apply dict_get_In in G. destruct G as (k0 & Hin0 & _). eauto.
Qed.

Lemma age_all (Q : hstate learner -> Prop) tolerance old :
  (forall k h, In (k, h) old -> fail h + 1 <= tolerance ->
               Q (HState (fail h + 1) (child h))) ->
  forall acc,
    (forall k h, In (k, h) acc -> Q h) ->
    forall k h, In (k, h) (fold_left (age_one tolerance) old acc) -> Q h.
Proof.
  induction old as [|[k1 h1] rest IH]; simpl; intros Hold acc Hacc.
  - exact Hacc.
  - apply IH; [intros; eapply Hold; eauto|].
    destruct (dict_mem acc k1); [exact Hacc|].
    destruct (fail h1 + 1 <=? tolerance) eqn:E; [|exact Hacc].
    apply Z.leb_le in E.
    intros k h Hin. apply dict_set_In in Hin.
    destruct Hin as [[-> _]|Hin]; [|eauto].
    eapply Hold; eauto.
Qed.

Lemma retained_all (Q : hstate learner -> Prop) l row t d :
  Q fresh_hstate ->
  (forall k h, In (k, h) (hypotheses l) -> Q h) ->
  (forall k h, In (k, h) (hypotheses l) ->
               fail h + 1 <= tolerance (cfg_of l) ->
               Q (HState (fail h + 1) (child h))) ->
  retained l row t = Ok d ->
  forall k h, In (k, h) d -> Q h.
Proof.
  intros Hfresh Hold Haged. unfold retained. intro H.
  destruct (enumerate_hypotheses (cfg_of l) row t) as [cands|e];
    simpl in H; [|discriminate].
  destruct (renew (hypotheses l) row t cands []) as [d1|e] eqn:R;
    simpl in H; [|discriminate].
  inversion H; subst. apply age_all; [exact Haged|].
  eapply renew_all; [exact Hfresh | exact Hold | | exact R].
  intros k h [].
Qed.

Lemma counts_bounded_on l args :
  counts_bounded l -> counts_bounded (fst (on l args)).
Proof.
  intros Hl k h' Hin. rewrite on_cfg. revert Hin.
  unfold on, on_with. destruct args as [|ctx [|gi [|]]]; try apply Hl.
  unfold on_body. destruct ctx as [row t|]; [|apply Hl].
  destruct (retained l row t) as [d|e] eqn:R; [|apply Hl].
  assert (forall k h, In (k, h) d ->
                      0 <= fail h <= Z.max 0 (tolerance (cfg_of l))) as Hd.
  { apply (retained_all
             (fun h => 0 <= fail h <= Z.max 0 (tolerance (cfg_of l)))
             l row t d); [simpl; lia | exact Hl | | exact R].
    intros k0 h0 Hin0 Hle. specialize (Hl k0 h0 Hin0). simpl. lia. }
  unfold update_children. simpl cfg_of. simpl hypotheses.
  destruct (max_depth (cfg_of l) <=? 0); [apply Hd|].
  pose proof (refresh_entries (fun c _ => arity_error c) (cfg_of l) row t d
                arity_error_fst k h') as Hr.
  destruct (refresh _ (cfg_of l) row t d) as [hyps r]. simpl in *.
  intro Hin. destruct (Hr Hin) as (h & Hh & Hf & _).
  rewrite Hf. exact (Hd k h Hh).
Qed.

(** The keys of the map after a call of [on] were keys before or were
    enumerated for the row. *)
Lemma on_keys (K : key -> Prop) l row t gi :
  (forall k h, In (k, h) (hypotheses l) -> K k) ->
  (forall cands c, enumerate_hypotheses (cfg_of l) row t = Ok cands ->
                   In c cands -> K (c_key c)) ->
  forall k h, In (k, h) (hypotheses (fst (on l [Context row t; gi]))) -> K k.
Proof.
  intros Hold Hnew k h.
  assert (forall k, In k (map fst (hypotheses l)) -> K k) as Hold'.
  { intros k0 Hk. apply in_map_iff in Hk.
    destruct Hk as ([k1 h1] & <- & Hin1). exact (Hold k1 h1 Hin1). }
  unfold on, on_with, on_body.
  destruct (retained l row t) as [d|e] eqn:R; [|apply Hold].
  unfold update_children. simpl.
  assert (forall k h, In (k, h) d -> K k) as Hd.
  { intros k0 h0 Hin0.
    destruct (retained_keys l row t d k0 h0 R Hin0)
      as [Hk|(cands & c & Hen & Hc & ->)]; [auto | eauto]. }
  destruct (max_depth (cfg_of l) <=? 0); [apply Hd|].
  pose proof (refresh_keys (fun c _ => arity_error c) (cfg_of l) row t d)
    as Hk.
  destruct (refresh _ (cfg_of l) row t d) as [hyps r]. simpl in *.
  intro Hin. assert (In k (map fst hyps)) as Hin'
    by (apply in_map_iff; exists (k, h); auto).
  rewrite Hk in Hin'. apply in_map_iff in Hin'.
  destruct Hin' as ([k1 h1] & <- & Hin1). exact (Hd k1 h1 Hin1).
Qed.

Lemma enumerated_in_space cfg row t cands c :
  enumerate_hypotheses cfg row t = Ok cands -> In c cands ->
  key_in_space cfg (c_key c).
Proof.
  unfold enumerate_hypotheses. intros H Hc.
  destruct (concat_result_inv _ _ _ _ H Hc)
    as (size & cs & Hrange & Hsize & Hc1).
  apply range_In in Hrange. unfold combinations_z in Hsize.
  destruct (size <? 0) eqn:E; simpl in Hsize; [discriminate|].
  apply Z.ltb_ge in E.
  destruct (concat_result_inv _ _ _ _ Hsize Hc1) as (s & cs2 & Hs & Hcs & Hc2).
  pose proof (combinations_in_range _ _ _ Hs) as Hfit.
  apply combinations_seq in Hs. destruct Hs as [Hlen Hasc].
  apply ascending_sorted in Hasc. destruct Hasc as [Hsorted _].
  rewrite (candidates_of_subset_spec cfg row t s Hfit) in Hcs.
  pose proof (rhs_candidates_In cfg row t) as HR.
  set (rc := rhs_candidates cfg row t) in *. clearbody rc.
  injection Hcs as <-.
  apply in_flat_map in Hc2. destruct Hc2 as ([fi fn] & Hfn & Hc2).
  apply in_map_iff in Hc2. destruct Hc2 as (r & <- & Hr). simpl.
  apply enumerate_In in Hfn. apply HR in Hr.
  split; [apply nth_error_Some; congruence|]. split; [exact Hsorted|].
  split; [lia|]. destruct r; simpl in *; tauto.
Qed.

Lemma keys_in_space_on l args :
  keys_in_space l -> keys_in_space (fst (on l args)).
Proof.
  intros Hl k h. rewrite on_cfg.
  destruct args as [|ctx [|gi [|]]]; try apply Hl.
  destruct ctx as [row t|]; [|apply Hl].
  apply (on_keys (key_in_space (cfg_of l)) l row t gi Hl).
  intros cands c Hen Hc. eapply enumerated_in_space; eauto.
Qed.

Lemma inherits_on l args : inherits l -> inherits (fst (on l args)).
Proof.
  intros H k h' c Hin Hc. rewrite on_cfg.
  destruct (on_entries l args k h' Hin)
    as [(k0 & h & Hin0 & Ek & Hch)|[Hn|(Hd & _ & _ & Hch)]].
  - apply (H k0 h c Hin0). congruence.
  - congruence.
  - rewrite Hch in Hc. inversion Hc; subst. simpl. auto.
Qed.

(** ** Rounds in which a hypothesis does not pass *)

Lemma after_failures_step tolerance n count :
  after_failures tolerance n (tolerance_step tolerance count false) =
  after_failures tolerance (S n) count.
Proof.
  destruct count as [f|]; cbn [after_failures tolerance_step];
    [|reflexivity].
  destruct (f + 1 <=? tolerance) eqn:E1.
  - apply Z.leb_le in E1. destruct n as [|n].
    + cbn [after_failures]. change (Z.of_nat 1) with 1.
      replace (f + 1 <=? tolerance) with true
        by (symmetry; apply Z.leb_le; lia).
      reflexivity.
    + cbn [after_failures].
      replace (f + 1 + Z.of_nat (S n)) with (f + Z.of_nat (S (S n))) by lia.
      reflexivity.
  - apply Z.leb_gt in E1. cbn [after_failures].
    destruct (f + Z.of_nat (S n) <=? tolerance) eqn:E2; [|reflexivity].
    apply Z.leb_le in E2. lia.
Qed.

Lemma failing_rounds k exs :
  forall l,
    dict_ok (hypotheses l) ->
    0 <= min_lhs (cfg_of l) ->
    Forall (fun ex : list value * Z =>
              valid_index (fst ex) (snd ex) /\
              passes (cfg_of l) (fst ex) (snd ex) k = false) exs ->
    failure_count (train_all l exs) k =
    after_failures (tolerance (cfg_of l)) (length exs) (failure_count l k).
Proof.
  induction exs as [|[row t] rest IH]; intros l Hok Hmin Hall.
  - simpl. destruct (failure_count l k); reflexivity.
  - inversion Hall as [|x xs [Hvalid Hfail] Hrest]; subst. simpl in *.
    change (train_all l ((row, t) :: rest))
      with (train_all (fst (train l row t)) rest).
    assert (cfg_of (fst (train l row t)) = cfg_of l) as Hcfg
      by apply on_cfg.
    rewrite IH.
    + rewrite Hcfg, (train_step l row t k Hok Hmin Hvalid), Hfail.
      apply after_failures_step.
    + apply on_dict_ok. exact Hok.
    + rewrite Hcfg. exact Hmin.
    + rewrite Hcfg. exact Hrest.
Qed.

(** ** The size of the enumeration *)

Lemma combinations_length {A} (l : list A) :
  forall r, length (combinations l r) = choose (length l) r.
Proof.
  induction l as [|x l IH]; intros [|r]; simpl; try reflexivity.
  rewrite length_app, length_map, !IH. reflexivity.
Qed.

Lemma flat_map_uniform_length {A B} (f : A -> list B) (c : nat) l :
  (forall x, In x l -> length (f x) = c) ->
  length (flat_map f l) = (length l * c)%nat.
Proof.
  induction l as [|x l IH]; simpl; intro H; [reflexivity|].
  rewrite length_app, (H x) by auto. rewrite IH by auto. reflexivity.
Qed.

Lemma enumerate_length {A} (l : list A) : length (enumerate l) = length l.
Proof.
  unfold enumerate. rewrite length_combine, length_seq. apply Nat.min_id.
Qed.

Lemma features_length (row : list value) (t : Z) :
  length (filter (fun iv : nat * value => negb (Z.of_nat (fst iv) =? t))
                 (enumerate row)) = feature_count (length row) t.
Proof.
  unfold enumerate, feature_count.
  assert (forall a,
    length (filter (fun iv : nat * value => negb (Z.of_nat (fst iv) =? t))
                   (combine (seq a (length row)) row)) =
    (length row -
     (if ((Z.of_nat a <=? t) && (t <? Z.of_nat (a + length row)))%Z
      then 1 else 0))%nat) as H.
  { induction row as [|v row IH]; intro a; simpl length.
    - reflexivity.
    - cbn [seq combine filter fst]. specialize (IH (S a)).
      destruct (Z.of_nat a =? t) eqn:E; cbn [negb].
      + apply Z.eqb_eq in E. rewrite IH.
        replace (Z.of_nat (S a) <=? t) with false
          by (symmetry; apply Z.leb_gt; lia).
        replace (Z.of_nat a <=? t) with true
          by (symmetry; apply Z.leb_le; lia).
        replace (t <? Z.of_nat (a + S (length row))) with true
          by (symmetry; apply Z.ltb_lt; lia).
        simpl. lia.
      + apply Z.eqb_neq in E. cbn [length]. rewrite IH.
        replace (S a + length row)%nat with (a + S (length row))%nat by lia.
        destruct (t <? Z.of_nat (a + S (length row))) eqn:E2;
          [|rewrite !andb_false_r; lia].
        apply Z.ltb_lt in E2.
        destruct (Z.of_nat (S a) <=? t) eqn:E3.
        * apply Z.leb_le in E3.
          replace (Z.of_nat a <=? t) with true
            by (symmetry; apply Z.leb_le; lia).
          simpl. lia.
        * apply Z.leb_gt in E3.
          replace (Z.of_nat a <=? t) with false
            by (symmetry; apply Z.leb_gt; lia).
          simpl. lia. }
  rewrite (H 0%nat). reflexivity.
Qed.

Lemma rhs_candidates_length cfg row t :
  length (rhs_candidates cfg row t) =
  (1 + feature_count (length row) t + length (constants cfg))%nat.
Proof.
  unfold rhs_candidates.
  rewrite !length_app, !length_map, features_length. simpl. lia.
Qed.

Lemma list_sum_scale {A} (f : A -> nat) (c : nat) (l : list A) :
  list_sum (map (fun x => (f x * c)%nat) l) = (list_sum (map f l) * c)%nat.
Proof.
  induction l as [|x l IH]; simpl; [reflexivity|]. rewrite IH. lia.
Qed.

(** ** The sum rule *)

Lemma target_key_eq (k : key) fi s :
  key_eqb k (fi, s, RTarget) = true -> k = (fi, s, RTarget).
Proof.
  destruct k as [[f1 s1] r1]. simpl. rewrite !andb_true_iff.
  intros [[H1 H2] H3]. apply Nat.eqb_eq in H1. apply subset_eqb_eq in H2.
  destruct r1; try discriminate. subst. reflexivity.
Qed.

Lemma sum_rule_passes cfg x y :
  functions cfg = [equals_sum] -> min_lhs cfg = 2 -> max_lhs cfg = 2 ->
  passes cfg [VInt x; VInt y; VInt (x + y)] 2
         (0%nat, [0%nat; 1%nat], RTarget) = true.
Proof.
  intros Hf Hmin Hmax. unfold passes.
  destruct (enumerate_hypotheses cfg [VInt x; VInt y; VInt (x + y)] 2)
    as [cands|e] eqn:Hen;
    [|rewrite enumerate_hypotheses_spec in Hen by lia; discriminate].
  apply existsb_exists.
  exists (Candidate (0%nat, [0%nat; 1%nat], RTarget) equals_sum
                    [0%nat; 1%nat] [VInt x; VInt y] RTarget).
  split.
  - apply (enumerated_keys cfg _ 2 cands ltac:(lia) Hen).
    exists equals_sum. simpl. rewrite Hf, Hmin, Hmax.
    repeat split; try reflexivity; lia.
  - rewrite key_eqb_refl. simpl.
    apply negb_true_iff || idtac.
    apply Z.eqb_eq. lia.
Qed.

Lemma passing_rounds k rows :
  forall l,
    dict_ok (hypotheses l) ->
    0 <= min_lhs (cfg_of l) ->
    Forall (fun ex : list value * Z =>
              valid_index (fst ex) (snd ex) /\
              passes (cfg_of l) (fst ex) (snd ex) k = true) rows ->
    rows <> [] ->
    exists f, failure_count (train_all l rows) k = Some f.
Proof.
  induction rows as [|[row t] rest IH]; intros l Hok Hmin Hall Hne;
    [congruence|].
  inversion Hall as [|x xs [Hvalid Hpass] Hrest]; subst. simpl in *.
  change (train_all l ((row, t) :: rest))
    with (train_all (fst (train l row t)) rest).
  assert (cfg_of (fst (train l row t)) = cfg_of l) as Hcfg by apply on_cfg.
  assert (exists f, failure_count (fst (train l row t)) k = Some f) as Hf.
  { rewrite (train_step l row t k Hok Hmin Hvalid), Hpass.
    destruct (failure_count l k); simpl; eauto. }
  destruct rest as [|ex rest]; [exact Hf|].
  apply IH.
  - apply on_dict_ok. exact Hok.
  - rewrite Hcfg. exact Hmin.
  - rewrite Hcfg. exact Hrest.
  - discriminate.
Qed.

(** ** The relation functions of the tests *)

Lemma py_sum_none lhs : In VNone lhs -> py_sum lhs = None.
Proof.
  induction lhs as [|v r IH]; simpl; [tauto|].
  intros [->|Hin]; [reflexivity|]. rewrite (IH Hin).
  destruct v; reflexivity.
Qed.

Lemma py_sum_some lhs : ~ In VNone lhs -> exists s, py_sum lhs = Some s.
Proof.
  induction lhs as [|v r IH]; simpl; intro H; [eauto|].
  destruct IH as [s ->]; [tauto|].
  destruct v; [tauto | eauto | eauto].
Qed.

Lemma max_from_ints (zs : list Z) :
  forall m, max_from (VInt m) (map VInt zs) =
            Returns (VInt (fold_left Z.max zs m)).
Proof.
  induction zs as [|z zs IH]; intro m; simpl; [reflexivity|].
  unfold py_gt. simpl. destruct (m <? z) eqn:E.
  - apply Z.ltb_lt in E. rewrite IH. rewrite (Z.max_r m z) by lia.
    reflexivity.
  - apply Z.ltb_ge in E. rewrite IH. rewrite (Z.max_l m z) by lia.
    reflexivity.
Qed.

Lemma min_from_ints (zs : list Z) :
  forall m, min_from (VInt m) (map VInt zs) =
            Returns (VInt (fold_left Z.min zs m)).
Proof.
  induction zs as [|z zs IH]; intro m; simpl; [reflexivity|].
  unfold py_gt. simpl. destruct (z <? m) eqn:E.
  - apply Z.ltb_lt in E. rewrite IH. rewrite (Z.min_r m z) by lia.
    reflexivity.
  - apply Z.ltb_ge in E. rewrite IH. rewrite (Z.min_l m z) by lia.
    reflexivity.
Qed.

Lemma fold_max_spec (zs : list Z) :
  forall m, let M := fold_left Z.max zs m in
            In M (m :: zs) /\ Forall (fun z => z <= M) (m :: zs).
Proof.
  induction zs as [|z zs IH]; intro m; simpl.
  - split; [auto|]. constructor; [lia | constructor].
  - destruct (IH (Z.max m z)) as [Hin Hall]. simpl in Hin.
    inversion Hall as [|x xs Hm Hzs]; subst. split.
    + destruct Hin as [E|Hin]; [|auto].
      rewrite <- E.
      destruct (Z.max_spec m z) as [[_ Hz]|[_ Hz]]; rewrite Hz; auto.
    + constructor; [lia|]. constructor; [lia | exact Hzs].
Qed.

Lemma fold_min_spec (zs : list Z) :
  forall m, let M := fold_left Z.min zs m in
            In M (m :: zs) /\ Forall (fun z => M <= z) (m :: zs).
Proof.
  induction zs as [|z zs IH]; intro m; simpl.
  - split; [auto|]. constructor; [lia | constructor].
  - destruct (IH (Z.min m z)) as [Hin Hall]. simpl in Hin.
    inversion Hall as [|x xs Hm Hzs]; subst. split.
    + destruct Hin as [E|Hin]; [|auto].
      rewrite <- E.
      destruct (Z.min_spec m z) as [[_ Hz]|[_ Hz]]; rewrite Hz; auto.
    + constructor; [lia|]. constructor; [lia | exact Hzs].
Qed.

Lemma py_gt_none_l b : py_gt VNone b = None.
Proof. reflexivity. Qed.

Lemma py_gt_none_r a : py_gt a VNone = None.
Proof. destruct a; reflexivity. Qed.

Lemma max_from_none (rest : list value) :
  forall m, (m = VNone /\ rest <> []) \/ In VNone rest ->
            max_from m rest = Throws TypeError.
Proof.
  induction rest as [|x r IH]; intros m H.
  - destruct H as [[_ H]|[]]. congruence.
  - simpl.
    assert (py_gt x m = None \/ In VNone r) as [E|Hin].
    { destruct H as [[-> _]|[->|Hin]]; auto using py_gt_none_l, py_gt_none_r. }
    + rewrite E. reflexivity.
    + destruct (py_gt x m) as [[|]|]; [| |reflexivity]; apply IH; auto.
Qed.

Lemma min_from_none (rest : list value) :
  forall m, (m = VNone /\ rest <> []) \/ In VNone rest ->
            min_from m rest = Throws TypeError.
Proof.
  induction rest as [|x r IH]; intros m H.
  - destruct H as [[_ H]|[]]. congruence.
  - simpl.
    assert (py_gt m x = None \/ In VNone r) as [E|Hin].
    { destruct H as [[-> _]|[->|Hin]]; auto using py_gt_none_l, py_gt_none_r. }
    + rewrite E. reflexivity.
    + destruct (py_gt m x) as [[|]|]; [| |reflexivity]; apply IH; auto.
Qed.

(** ** The values of [predict] on a trained learner *)

(** In a trained tree only the root has hypotheses, so a value yielded
    by a target-descriptor hypothesis somewhere in the tree is yielded
    by one of the root. *)
Lemma trained_predicted_by cfg examples row v l' :
  descendant l' (train_all (new_learner cfg) examples) ->
  predicted_by l' row v ->
  predicted_by (train_all (new_learner cfg) examples) row v.
Proof.
  intros Hd Hp. inversion Hd as [|a b c k h Hin Hc Hd']; subst; [exact Hp|].
  exfalso.
  pose proof (trained_untrained_children cfg examples k h c Hin Hc) as Hempty.
  destruct Hp as (fi & s & h0 & fn & vals & Hin0 & _).
  inversion Hd' as [|a b c' k' h' Hin' _ _]; subst.
  - rewrite Hempty in Hin0. destruct Hin0.
  - rewrite Hempty in Hin'. destruct Hin'.
Qed.

(** * The specified properties *)

(** C3. End-to-end scenario A: the learner built with the single
    function [equals_sum] and [min_lhs = max_lhs = 2], trained on
    [[3,5,8]], [[2,4,6]] and [[10,-1,9]] with [target_index = 2],
    predicts on [[7,1,None]] a list that includes 8. *)
Theorem scenario_A_predicts_the_sum :
  exists out,
    snd (predict (train_all scenario_A rows_A) [VInt 7; VInt 1; VNone])
    = Ok out /\
    In (VInt 8) out.
Proof.
  exists [VInt 8]. split.
  - vm_compute. reflexivity.
  - left. reflexivity.
Qed.

(** C5. Target terminality: after any sequence of train calls, in every
    learner of the tree, a retained hypothesis whose RHS descriptor is
    [("target", None)] has no child. *)
Theorem target_rules_own_no_child
    (cfg : config) (examples : list (list value * Z))
    (l' : learner) (k : key) (h : hstate learner) :
  descendant l' (train_all (new_learner cfg) examples) ->
  In (k, h) (hypotheses l') ->
  is_target (snd k) = true ->
  child h = None.
Proof.
  intros Hd Hin Ht.
  assert (everywhere target_terminal (train_all (new_learner cfg) examples))
    as Hall.
  { apply trained_everywhere.
    - intros c k0 h0 [].
    - intros l args. apply target_terminal_on. }
  exact (Hall l' Hd k h Hin Ht).
Qed.

Lemma target_rules_own_no_child_witness :
  let l := train_all scenario_C [([VInt 42; VInt 0], 1)] in
  let k : key := (0%nat, [1%nat], RTarget) in
  (descendant l l /\ In (k, HState 0 None) (hypotheses l) /\
   is_target (snd k) = true) /\
  child (@HState learner 0 None) = None.
Proof.
  assert (In ((0%nat, [1%nat], RTarget), @HState learner 0 None)
             (hypotheses (train_all scenario_C [([VInt 42; VInt 0], 1)])))
    as Hin by (vm_compute; right; right; left; reflexivity).
  split.
  - split; [apply desc_self|]. split; [exact Hin | reflexivity].
  - apply (target_rules_own_no_child
             (cfg_of scenario_C) [([VInt 42; VInt 0], 1)]
             (train_all scenario_C [([VInt 42; VInt 0], 1)])
             (0%nat, [1%nat], RTarget) (HState 0 None)).
    + apply desc_self.
    + exact Hin.
    + reflexivity.
Defined.

(** C6. Depth bound: a learner constructed with [max_depth <= 0] never
    acquires a child; after every sequence of train calls every retained
    hypothesis has [child = None]. *)
Theorem no_children_without_budget
    (cfg : config) (examples : list (list value * Z))
    (k : key) (h : hstate learner) :
  max_depth cfg <= 0 ->
  In (k, h) (hypotheses (train_all (new_learner cfg) examples)) ->
  child h = None.
Proof.
  intros Hd Hin.
  assert (max_depth (cfg_of (train_all (new_learner cfg) examples)) <= 0 /\
          childless (train_all (new_learner cfg) examples)) as [_ H].
  { apply (train_all_invariant
             (fun l => max_depth (cfg_of l) <= 0 /\ childless l)).
    - intros l args [Hl Hc]. split.
      + rewrite on_cfg. exact Hl.
      + apply childless_on; assumption.
    - split; [exact Hd|]. intros k0 h0 []. }
  exact (H k h Hin).
Qed.

Lemma no_children_without_budget_witness :
  let cfg := with_max_depth 0 (cfg_of scenario_C) in
  let k : key := (0%nat, [0%nat], RFeature 0) in
  (max_depth cfg <= 0 /\
   In (k, HState 0 None)
      (hypotheses (train_all (new_learner cfg) [([VInt 42; VInt 0], 1)]))) /\
  child (@HState learner 0 None) = None.
Proof.
  assert (In ((0%nat, [0%nat], RFeature 0), @HState learner 0 None)
             (hypotheses
                (train_all
                   (new_learner (with_max_depth 0 (cfg_of scenario_C)))
                   [([VInt 42; VInt 0], 1)])))
    as Hin by (vm_compute; left; reflexivity).
  split.
  - split; [simpl; lia | exact Hin].
  - apply (no_children_without_budget
             (with_max_depth 0 (cfg_of scenario_C))
             [([VInt 42; VInt 0], 1)]
             (0%nat, [0%nat], RFeature 0) (HState 0 None)).
    + simpl. lia.
    + exact Hin.
Defined.

(** C7. Self-nesting guard.  Throughout every trained tree, (1) a child
    carries as [parent_key] the key of the hypothesis that owns it,
    (2) the hypothesis whose key equals the learner's own [parent_key]
    owns no child, hence (3) a child created under a key [K] owns no
    grandchild under a key equal to [K]; and (4) a call of [on] on any
    learner never creates a child for the hypothesis whose key equals
    that learner's [parent_key]: a child found there afterwards was
    there before. *)
Theorem self_nesting_guard (cfg : config) (examples : list (list value * Z)) :
  let root := train_all (new_learner cfg) examples in
  everywhere keyed_children root /\
  everywhere self_guarded root /\
  (forall l k h c k2 h2,
      descendant l root ->
      In (k, h) (hypotheses l) -> child h = Some c ->
      In (k2, h2) (hypotheses c) -> key_eqb k2 k = true ->
      child h2 = None) /\
  (forall l args k h' c,
      is_parent_key k (parent_key (cfg_of l)) = true ->
      In (k, h') (hypotheses (fst (on l args))) ->
      child h' = Some c ->
      exists k0 h, In (k0, h) (hypotheses l) /\ key_eqb k0 k = true /\
                   child h = Some c).
Proof.
  intro root.
  assert (everywhere keyed_children root) as Hkeyed.
  { apply trained_everywhere.
    - intros c k h c0 [].
    - intros l args. apply keyed_children_on. }
  assert (everywhere self_guarded root) as Hguard.
  { apply trained_everywhere.
    - intros c k h [].
    - intros l args. apply self_guarded_on. }
  split; [exact Hkeyed|]. split; [exact Hguard|]. split.
  - intros l k h c k2 h2 Hd Hin Hc Hin2 Ek.
    pose proof (Hkeyed l Hd k h c Hin Hc) as Hp.
    assert (descendant c root) as Hdc.
    { eapply descendant_trans; [|exact Hd].
      eapply desc_child; [exact Hin | exact Hc | apply desc_self]. }
    apply (Hguard c Hdc k2 h2 Hin2).
    rewrite (is_parent_key_congr k2 k _ Ek). exact Hp.
  - intros l args k h' c Hp Hin Hc.
    destruct (on_entries l args k h' Hin)
      as [(k0 & h & Hin0 & Ek & Hch)|[Hn|(_ & _ & Hnp & _)]].
    + exists k0, h. split; [exact Hin0|]. split; [exact Ek | congruence].
    + congruence.
    + congruence.
Qed.

(** C9. Bounded recursion.  [on] and [predict] are total functions: the
    recursion of [predict] and of [_update_children] reaches the method
    only on the children owned by the hypotheses of the learner at hand
    (never another learner), a child exists only under a strictly
    positive [max_depth] and holds [max_depth - 1], and so every subtree
    of a trained tree is at most as high as its own budget, which is at
    most the root's [max_depth]. *)
Theorem bounded_recursion (cfg : config) (examples : list (list value * Z)) :
  let root := train_all (new_learner cfg) examples in
  (forall l, descendant l root ->
     budgeted l /\
     Z.of_nat (height l) <= Z.max 0 (max_depth (cfg_of l)) /\
     max_depth (cfg_of l) <= max_depth cfg) /\
  (0 <= max_depth cfg -> Z.of_nat (height root) <= max_depth cfg) /\
  (forall self1 self2 c row hs out,
     (forall k h c', In (k, h) hs -> child h = Some c' ->
                     self1 c' row = self2 c' row) ->
     predict_hyps self1 c row hs out = predict_hyps self2 c row hs out) /\
  (forall self1 self2 c row t hyps,
     (forall k h, In (k, h) hyps ->
                  self1 (child_or_new c k h) [Context row t] =
                  self2 (child_or_new c k h) [Context row t]) ->
     refresh self1 c row t hyps = refresh self2 c row t hyps) /\
  (forall l args, exists l' r, on l args = (l', r)) /\
  (forall l row, exists l' r, predict l row = (l', r)).
Proof.
  intro root.
  assert (everywhere budgeted root) as Hall.
  { apply trained_everywhere.
    - intros c k h c0 [].
    - intros l args. apply budgeted_on. }
  assert (cfg_of root = cfg) as Hcfg by apply train_all_cfg.
  split; [|split; [|split; [|split; [|split]]]].
  - intros l Hd. destruct (descendant_budget l root Hall Hd) as [Hl Hlt].
    split; [exact (everywhere_here _ _ Hl)|].
    split; [exact (budgeted_height l Hl)|].
    rewrite <- Hcfg. destruct Hlt as [->|Hlt]; lia.
  - intro Hpos. pose proof (budgeted_height root Hall) as H.
    rewrite Hcfg in H. lia.
  - intros. apply predict_hyps_ext. assumption.
  - intros. apply refresh_ext. assumption.
  - intros l args. destruct (on l args) as [l' r]. eauto.
  - intros l row. destruct (predict l row) as [l' r]. eauto.
Qed.

(** C2, at a negative target index.  The specification has a feature
    RHS never name the target's column; [_rhs_candidates] compares the
    column positions with [target_index] itself.  For the row
    [[3, 5, 8]] and [target_index = -1] (the default of [Context]) the
    target value is [row[-1] = row[2] = 8], yet the key
    [(0, (0, 1), ("feature", 2))] is enumerated: it passes, is retained
    as a feature rule and is given a child, and the training call
    raises [TypeError]; with [target_index = 2], the same column, no
    feature rule on column 2 is enumerated and the call returns. *)
Theorem feature_rhs_names_the_target_column :
  let cfg := cfg_of scenario_A in
  let row := [VInt 3; VInt 5; VInt 8] in
  let k : key := (0%nat, [0%nat; 1%nat], RFeature 2) in
  valid_index row (-1) /\
  row_get row (-1) = Ok (VInt 8) /\
  row_get row 2 = Ok (VInt 8) /\
  (exists cands,
      enumerate_hypotheses cfg row (-1) = Ok cands /\
      In k (map c_key cands)) /\
  passes cfg row (-1) k = true /\
  failure_count (fst (train scenario_A row (-1))) k = Some 0 /\
  map fst (hypotheses (fst (train scenario_A row (-1)))) =
    [(0%nat, [0%nat; 1%nat], RTarget); k] /\
  snd (train scenario_A row (-1)) = Raise (LearnerFault TypeError) /\
  (exists cands,
      enumerate_hypotheses cfg row 2 = Ok cands /\
      forall fn_index s, ~ In (fn_index, s, RFeature 2) (map c_key cands)) /\
  snd (train scenario_A row 2) = Ok tt.
Proof.
  cbv zeta.
  split; [unfold valid_index; simpl; lia|].
  split; [reflexivity|]. split; [reflexivity|].
  split.
  { eexists. split; [vm_compute; reflexivity|].
    vm_compute. right. right. right. left. reflexivity. }
  split; [vm_compute; reflexivity|].
  split; [vm_compute; reflexivity|].
  split; [vm_compute; reflexivity|].
  split; [vm_compute; reflexivity|].
  split; [|vm_compute; reflexivity].
  eexists. split; [vm_compute; reflexivity|].
  intros fi s Hin. vm_compute in Hin.
  repeat (destruct Hin as [Hin|Hin]; [discriminate Hin|]).
  exact Hin.
Qed.

(** C1. The tolerance state machine.  In a train call (with a valid
    target index, on a learner whose [min_lhs] is non-negative) every
    key moves as [tolerance_step] says: a tracked hypothesis that does
    not pass - not being enumerated for the row included - has its
    failure count incremented by exactly one and stays if and only if
    the incremented count is [<= tolerance], otherwise its entry (and
    with it its child) is gone; a tracked hypothesis that passes keeps
    its failure count; an untracked key that passes - after a drop, for
    one - enters with failure count 0, and with no child or a child
    constructed in this very call. *)
Theorem tolerance_state_machine
    (cfg : config) (examples : list (list value * Z))
    (row : list value) (t : Z) (k : key) :
  0 <= min_lhs cfg ->
  valid_index row t ->
  let l := train_all (new_learner cfg) examples in
  let l' := fst (train l row t) in
  failure_count l' k =
    tolerance_step (tolerance cfg) (failure_count l k) (passes cfg row t k) /\
  (failure_count l k = None ->
   forall k' h', In (k', h') (hypotheses l') -> key_eqb k' k = true ->
     child h' = None \/
     child h' = Some (new_learner (child_config cfg k'))).
Proof.
  intros Hmin Hvalid l l'.
  assert (cfg_of l = cfg) as Hcfg by apply train_all_cfg.
  split.
  - unfold l'. rewrite <- Hcfg. apply train_step.
    + apply trained_dict_ok.
    + rewrite Hcfg. exact Hmin.
    + exact Hvalid.
  - intros Hnone k' h' Hin Ek.
    destruct (on_entries l [Context row t; Other] k' h' Hin)
      as [(k0 & h & Hin0 & Ek0 & _)|[Hn|(_ & _ & _ & Hch)]].
    + exfalso. apply (dict_In_mem _ _ _ Hin0).
      rewrite (dict_get_congr _ k0 k (key_eqb_trans _ _ _ Ek0 Ek)).
      unfold failure_count in Hnone.
      destruct (dict_get (hypotheses l) k); [discriminate | reflexivity].
    + left. exact Hn.
    + right. rewrite <- Hcfg. exact Hch.
Qed.

Lemma tolerance_state_machine_witness :
  let cfg := default_config [equals_sum] in
  let k : key := (0%nat, [0%nat; 1%nat], RTarget) in
  let l := train_all (new_learner cfg) [([VInt 1; VInt 2; VInt 3], 2)] in
  (0 <= min_lhs cfg /\ valid_index [VInt 5; VInt 5; VInt 999] 2) /\
  failure_count l k = Some 0 /\
  passes cfg [VInt 5; VInt 5; VInt 999] 2 k = false /\
  failure_count (fst (train l [VInt 5; VInt 5; VInt 999] 2)) k = Some 1.
Proof.
  assert (0 <= min_lhs (default_config [equals_sum])) as H1
    by (simpl; lia).
  assert (valid_index [VInt 5; VInt 5; VInt 999] 2) as H2
    by (unfold valid_index; simpl; lia).
  split; [split; assumption|].
  split; [vm_compute; reflexivity|].
  split; [vm_compute; reflexivity|].
  pose proof (tolerance_state_machine
                (default_config [equals_sum])
                [([VInt 1; VInt 2; VInt 3], 2)]
                [VInt 5; VInt 5; VInt 999] 2
                (0%nat, [0%nat; 1%nat], RTarget) H1 H2) as H.
  cbv zeta in H. destruct H as [H _]. rewrite H.
  vm_compute. reflexivity.
Defined.


(** [equals_sum] raises [TypeError] on the column that holds [None];
    the prediction goes on without it. *)
Example raising_function_is_skipped :
  let l := train_all (new_learner (default_config [equals_sum]))
                     [([VInt 2; VInt 3; VInt 5], 2)] in
  dict_mem (hypotheses l) (0%nat, [2%nat], RTarget) = true /\
  equals_sum [VNone] None = Throws TypeError /\
  snd (predict l [VInt 10; VInt 1; VNone]) = Ok [VInt 11].
Proof.
  repeat split; vm_compute; reflexivity.
Qed.

(** C8, as stated, fails.  In scenario C of the tests ([equals_constant],
    constants [[42]], subset size 1, and also with the default subset
    sizes) the constant-RHS hypothesis [((0,), ("constant", 42))] holds
    and is retained after training on [[42, 0]], yet [predict] on
    [[42, None]] returns the empty list. *)
Lemma scenario_C_predicts_nothing :
  (let l := fst (train scenario_C [VInt 42; VInt 0] 1) in
   holds (call equals_constant [VInt 42] (Some (VInt 42))) = true /\
   dict_mem (hypotheses l) (0%nat, [0%nat], RConstant (VInt 42)) = true /\
   snd (predict l [VInt 42; VNone]) = Ok [] /\
   ~ (exists out, snd (predict l [VInt 42; VNone]) = Ok out /\
                  In (VInt 42) out)) /\
  (let l := fst (train scenario_C_default [VInt 42; VInt 0] 1) in
   dict_mem (hypotheses l) (0%nat, [0%nat], RConstant (VInt 42)) = true /\
   snd (predict l [VInt 42; VNone]) = Ok [] /\
   ~ (exists out, snd (predict l [VInt 42; VNone]) = Ok out /\
                  In (VInt 42) out)).
Proof.
  assert (snd (predict (fst (train scenario_C [VInt 42; VInt 0] 1))
                       [VInt 42; VNone]) = Ok []) as H1
    by (vm_compute; reflexivity).
  assert (snd (predict (fst (train scenario_C_default [VInt 42; VInt 0] 1))
                       [VInt 42; VNone]) = Ok []) as H2
    by (vm_compute; reflexivity).
  split; cbv zeta.
  - split; [vm_compute; reflexivity|]. split; [vm_compute; reflexivity|].
    split; [exact H1|]. intros (out & Hout & Hin).
    rewrite H1 in Hout. inversion Hout; subst. destruct Hin.
  - split; [vm_compute; reflexivity|].
    split; [exact H2|]. intros (out & Hout & Hin).
    rewrite H2 in Hout. inversion Hout; subst. destruct Hin.
Qed.

(** C8, amended.  For a learner built with a single relation function
    and the constant list [[42]], trained on [[42, 0]] with
    [target_index = 1] so that the constant-RHS hypothesis
    [((0,), ("constant", 42))] holds: [predict] on [[42, None]] returns a
    list, every value of which was yielded in prediction mode by a
    retained target-descriptor hypothesis; it includes 42 provided that
    some retained target-descriptor hypothesis's function returns 42 in
    prediction mode on that row.  (A constant-RHS hypothesis never
    contributes its literal.) *)
Theorem scenario_C_predicts_through_target_rules
    (cfg : config) (fn : relfn) :
  functions cfg = [fn] ->
  constants cfg = [VInt 42] ->
  let l := fst (train (new_learner cfg) [VInt 42; VInt 0] 1) in
  dict_mem (hypotheses l) (0%nat, [0%nat], RConstant (VInt 42)) = true ->
  exists out,
    snd (predict l [VInt 42; VNone]) = Ok out /\
    (forall v, In v out -> predicted_by l [VInt 42; VNone] v) /\
    (forall s h vals,
        In ((0%nat, s, RTarget), h) (hypotheses l) ->
        lhs_values_of [VInt 42; VNone] s = Ok vals ->
        call fn vals None = Ok (VInt 42) ->
        In (VInt 42) out).
Proof.
  intros Hfns Hconsts l _.
  assert (everywhere (fits 2) l) as Hfit.
  { apply (trained_fits 2 cfg [([VInt 42; VInt 0], 1)]).
    constructor; [reflexivity | constructor]. }
  destruct (predict_total l [VInt 42; VNone] Hfit) as [out Hout].
  exists out. split; [exact Hout|]. split.
  - intros v Hv.
    destruct (predict_sound l [VInt 42; VNone] out v Hout Hv)
      as (l' & Hd & Hp).
    exact (trained_predicted_by cfg [([VInt 42; VInt 0], 1)]
             [VInt 42; VNone] v l' Hd Hp).
  - intros s h vals Hin Hvals Hcall.
    apply (predict_complete l [VInt 42; VNone] out (VInt 42) Hout).
    exists 0%nat, s, h, fn, vals. split; [exact Hin|].
    split; [unfold l, train; rewrite on_cfg; simpl; rewrite Hfns; reflexivity|].
    split; [exact Hvals|]. split; [exact Hcall | discriminate].
Qed.

Lemma scenario_C_predicts_through_target_rules_witness :
  let cfg := with_constants [VInt 42]
               (with_lhs 1 1 (default_config [first_or_true])) in
  let l := fst (train (new_learner cfg) [VInt 42; VInt 0] 1) in
  (functions cfg = [first_or_true] /\
   constants cfg = [VInt 42] /\
   dict_mem (hypotheses l) (0%nat, [0%nat], RConstant (VInt 42)) = true) /\
  exists out,
    snd (predict l [VInt 42; VNone]) = Ok out /\
    (forall v, In v out -> predicted_by l [VInt 42; VNone] v) /\
    In (VInt 42) out.
Proof.
  cbv zeta.
  assert (dict_mem
            (hypotheses
               (fst (train
                       (new_learner
                          (with_constants [VInt 42]
                             (with_lhs 1 1 (default_config [first_or_true]))))
                       [VInt 42; VInt 0] 1)))
            (0%nat, [0%nat], RConstant (VInt 42)) = true) as Hmem
    by (vm_compute; reflexivity).
  assert (In ((0%nat, [0%nat], RTarget), @HState learner 0 None)
            (hypotheses
               (fst (train
                       (new_learner
                          (with_constants [VInt 42]
                             (with_lhs 1 1 (default_config [first_or_true]))))
                       [VInt 42; VInt 0] 1)))) as Hin
    by (vm_compute; left; reflexivity).
  split; [repeat split; try reflexivity; exact Hmem|].
  destruct (scenario_C_predicts_through_target_rules
              (with_constants [VInt 42]
                 (with_lhs 1 1 (default_config [first_or_true])))
              first_or_true eq_refl eq_refl Hmem)
    as (out & Hout & Hsound & Hincl).
  exists out. split; [exact Hout|]. split; [exact Hsound|].
  exact (Hincl [0%nat] (HState 0 None) [VInt 42] Hin eq_refl eq_refl).
Defined.

(** * Further properties of the code *)

(** X2. On a learner trained on rows of one width, [predict] on a row
    of that width raises nothing, leaves the learner as it is, and
    returns exactly what the retained target-descriptor hypotheses yield
    in prediction mode, in the order of the map; feature- and
    constant-RHS hypotheses contribute nothing, their children having
    never been trained. *)
Theorem predict_of_trained_learner
    (cfg : config) (examples : list (list value * Z)) (row : list value) :
  Forall (fun ex : list value * Z => length (fst ex) = length row) examples ->
  let l := train_all (new_learner cfg) examples in
  predict l row = (l, Ok (target_outputs cfg row (hypotheses l))).
Proof.
  intros Hw l.
  pose proof (everywhere_here _ _ (trained_fits (length row) cfg examples Hw))
    as Hfit.
  pose proof (trained_untrained_children cfg examples) as Hun.
  fold l in Hfit, Hun.
  assert (cfg_of l = cfg) as Hcfg by apply train_all_cfg.
  destruct l as [c hyps]. simpl in Hcfg. subst c.
  rewrite predict_unfold.
  rewrite (predict_hyps_outputs cfg row hyps Hfit Hun []). reflexivity.
Qed.

Lemma predict_of_trained_learner_witness :
  Forall (fun ex : list value * Z =>
            length (fst ex) = length [VInt 7; VInt 1; VNone]) rows_A /\
  predict (train_all scenario_A rows_A) [VInt 7; VInt 1; VNone] =
  (train_all scenario_A rows_A,
   Ok (target_outputs (cfg_of scenario_A) [VInt 7; VInt 1; VNone]
         (hypotheses (train_all scenario_A rows_A)))).
Proof.
  assert (Forall (fun ex : list value * Z =>
                    length (fst ex) = length [VInt 7; VInt 1; VNone]) rows_A)
    as H by (repeat constructor).
  split; [exact H|].
  exact (predict_of_trained_learner (cfg_of scenario_A) rows_A
           [VInt 7; VInt 1; VNone] H).
Defined.

(** X3. The only exception [predict] raises is [IndexError], in any
    learner state: it returns only if every key of the learner's own map
    can be read against the row (function index, LHS columns and feature
    column in range), and raises [IndexError] otherwise. *)
Theorem predict_raises_only_index_error :
  (forall l row r, snd (predict l row) = Raise r ->
                   r = LearnerFault IndexError) /\
  (forall l row out, snd (predict l row) = Ok out -> fits (length row) l) /\
  (forall l row, ~ fits (length row) l ->
                 snd (predict l row) = Raise (LearnerFault IndexError)).
Proof.
  split; [|split].
  - intros l row r H. pose proof (predict_faults l row) as Hf.
    rewrite H in Hf. exact Hf.
  - intros l row out H. pose proof (predict_faults l row) as Hf.
    rewrite H in Hf. exact Hf.
  - intros l row Hn. pose proof (predict_faults l row) as Hf.
    destruct (snd (predict l row)) as [out|r]; [contradiction | congruence].
Qed.

(** X4. What [predict] returns, in any learner state: every value of the
    list was yielded in prediction mode by a target-descriptor hypothesis
    of the learner or of a learner below it, and every value that a
    target-descriptor hypothesis of the learner itself yields (other
    than [None]) is in the list. *)
Theorem predict_returns_target_yields
    (l : learner) (row : list value) (out : list value) :
  snd (predict l row) = Ok out ->
  (forall v, In v out ->
             exists l', descendant l' l /\ predicted_by l' row v) /\
  (forall v, predicted_by l row v -> In v out).
Proof.
  intro H. split.
  - intros v Hv. exact (predict_sound l row out v H Hv).
  - intros v Hv. exact (predict_complete l row out v H Hv).
Qed.

Lemma predict_returns_target_yields_witness :
  snd (predict (train_all scenario_A rows_A) [VInt 7; VInt 1; VNone])
    = Ok [VInt 8] /\
  (forall v, In v [VInt 8] ->
     exists l', descendant l' (train_all scenario_A rows_A) /\
                predicted_by l' [VInt 7; VInt 1; VNone] v) /\
  (forall v, predicted_by (train_all scenario_A rows_A)
                          [VInt 7; VInt 1; VNone] v ->
             In v [VInt 8]).
Proof.
  assert (snd (predict (train_all scenario_A rows_A)
                       [VInt 7; VInt 1; VNone]) = Ok [VInt 8]) as H
    by (vm_compute; reflexivity).
  split; [exact H|].
  exact (predict_returns_target_yields (train_all scenario_A rows_A)
           [VInt 7; VInt 1; VNone] [VInt 8] H).
Defined.

(** X5. When a training call raises.  With a non-negative [min_lhs] and
    a valid target index, the call returns normally exactly when
    [max_depth <= 0] or [_update_children] passes over every retained
    hypothesis (target rule, own [parent_key], or relation not holding
    on the row); otherwise it raises [TypeError] (a child would be fed)
    or [IndexError] (a retained key does not fit the row). *)
Theorem train_returns_iff (l : learner) (row : list value) (t : Z) :
  0 <= min_lhs (cfg_of l) ->
  valid_index row t ->
  let r := train l row t in
  (snd r = Ok tt <->
   max_depth (cfg_of l) <= 0 \/
   forall k h, In (k, h) (hypotheses (fst r)) ->
               passed_over (cfg_of l) row k) /\
  (snd r = Ok tt \/ snd r = Raise (LearnerFault TypeError) \/
   snd r = Raise (LearnerFault IndexError)).
Proof.
  intros Hmin Hvalid.
  destruct (retained_defined l row t Hmin Hvalid) as [d Hd].
  unfold train, on, on_with, on_body. rewrite Hd.
  unfold update_children. simpl cfg_of. simpl hypotheses.
  destruct (max_depth (cfg_of l) <=? 0) eqn:Ed.
  - apply Z.leb_le in Ed. cbv zeta. simpl. split; [|auto].
    split; auto.
  - apply Z.leb_gt in Ed.
    pose proof (refresh_outcome (cfg_of l) row t d) as Ho.
    pose proof (refresh_keys (fun c _ => arity_error c) (cfg_of l) row t d)
      as Hk.
    cbv zeta in *.
    destruct (refresh (fun c _ => arity_error c) (cfg_of l) row t d)
      as [hyps r]. simpl in *.
    destruct Ho as ([Ho1 Ho2] & Ho3 & Ho4).
    split; [|exact Ho4]. split.
    + intro E. right. rewrite (Ho3 E). exact (Ho1 E).
    + intros [Hle|H]; [lia|]. apply Ho2. intros k h Hin.
      destruct (proj2 (in_keys_iff hyps d k Hk) (ex_intro _ h Hin))
        as [h' Hin'].
      exact (H k h' Hin').
Qed.

Lemma train_returns_iff_witness :
  let l := scenario_C in
  let r := train l [VInt 42; VInt 0] 1 in
  (0 <= min_lhs (cfg_of l) /\ valid_index [VInt 42; VInt 0] 1) /\
  (snd r = Ok tt <->
   max_depth (cfg_of l) <= 0 \/
   forall k h, In (k, h) (hypotheses (fst r)) ->
               passed_over (cfg_of l) [VInt 42; VInt 0] k) /\
  (snd r = Ok tt \/ snd r = Raise (LearnerFault TypeError) \/
   snd r = Raise (LearnerFault IndexError)).
Proof.
  assert (0 <= min_lhs (cfg_of scenario_C)) as H1 by (simpl; lia).
  assert (valid_index [VInt 42; VInt 0] 1) as H2
    by (unfold valid_index; simpl; lia).
  split; [split; assumption|].
  exact (train_returns_iff scenario_C [VInt 42; VInt 0] 1 H1 H2).
Defined.

(** X6. A training call that returns normally creates no child: every
    child found afterwards was the child of a hypothesis with an equal
    key before.  Children are created only by calls that raise. *)
Theorem returning_train_creates_no_child
    (l : learner) (row : list value) (t : Z)
    (k : key) (h' : hstate learner) (c : learner) :
  snd (train l row t) = Ok tt ->
  In (k, h') (hypotheses (fst (train l row t))) ->
  child h' = Some c ->
  exists k0 h, In (k0, h) (hypotheses l) /\ key_eqb k0 k = true /\
               child h = Some c.
Proof.
  unfold train, on, on_with, on_body.
  destruct (retained l row t) as [d|e] eqn:Hd; [|intro E; discriminate E].
  assert (In (k, h') d -> child h' = Some c ->
          exists k0 h, In (k0, h) (hypotheses l) /\ key_eqb k0 k = true /\
                       child h = Some c) as Hcarried.
  { intros Hin Hc.
    destruct (retained_carried l row t d Hd k h' Hin)
      as [->|(k0 & h & Hin0 & Ek & Hch & _)]; [discriminate|].
    exists k0, h. split; [exact Hin0|]. split; [exact Ek | congruence]. }
  unfold update_children. simpl cfg_of. simpl hypotheses.
  destruct (max_depth (cfg_of l) <=? 0); [intros _; exact Hcarried|].
  pose proof (refresh_outcome (cfg_of l) row t d) as Ho. cbv zeta in Ho.
  destruct (refresh (fun c _ => arity_error c) (cfg_of l) row t d)
    as [hyps r]. simpl in *.
  destruct Ho as (_ & Ho & _). intro E. rewrite (Ho E). exact Hcarried.
Qed.

Lemma returning_train_creates_no_child_witness :
  let l := fst (train scenario_A [VInt 3; VInt 0; VInt 3] 2) in
  let k : key := (0%nat, [0%nat; 1%nat], RFeature 0) in
  let c := new_learner (child_config (cfg_of scenario_A) k) in
  (snd (train l [VInt 3; VInt 5; VInt 8] 2) = Ok tt /\
   In (k, HState 1 (Some c))
      (hypotheses (fst (train l [VInt 3; VInt 5; VInt 8] 2)))) /\
  exists k0 h, In (k0, h) (hypotheses l) /\ key_eqb k0 k = true /\
               child h = Some c.
Proof.
  cbv zeta.
  assert (snd (train (fst (train scenario_A [VInt 3; VInt 0; VInt 3] 2))
                     [VInt 3; VInt 5; VInt 8] 2) = Ok tt) as H1
    by (vm_compute; reflexivity).
  assert (In ((0%nat, [0%nat; 1%nat], RFeature 0),
              HState 1 (Some (new_learner
                                (child_config (cfg_of scenario_A)
                                   (0%nat, [0%nat; 1%nat], RFeature 0)))))
             (hypotheses
                (fst (train (fst (train scenario_A [VInt 3; VInt 0; VInt 3] 2))
                            [VInt 3; VInt 5; VInt 8] 2)))) as H2
    by (vm_compute; right; left; reflexivity).
  split; [split; assumption|].
  exact (returning_train_creates_no_child
           (fst (train scenario_A [VInt 3; VInt 0; VInt 3] 2))
           [VInt 3; VInt 5; VInt 8] 2
           (0%nat, [0%nat; 1%nat], RFeature 0) _ _ H1 H2 eq_refl).
Defined.

(** X7. A negative [min_lhs] (with [min_lhs <= max_lhs]) makes every
    training call raise [ValueError] - [combinations] refuses a negative
    size - and leaves the learner as it was. *)
Theorem negative_min_lhs_raises (l : learner) (row : list value) (t : Z) :
  min_lhs (cfg_of l) < 0 ->
  min_lhs (cfg_of l) <= max_lhs (cfg_of l) ->
  train l row t = (l, Raise (LearnerFault ValueError)).
Proof.
  intros Hneg Hle. unfold train, on, on_with, on_body.
  assert (retained l row t = Raise (LearnerFault ValueError)) as ->;
    [|reflexivity].
  unfold retained, enumerate_hypotheses.
  destruct (range_head (min_lhs (cfg_of l)) (max_lhs (cfg_of l) + 1)
              ltac:(lia)) as [sizes ->].
  cbn [concat_result]. unfold combinations_z.
  destruct (min_lhs (cfg_of l) <? 0) eqn:E; [reflexivity|].
  apply Z.ltb_ge in E. lia.
Qed.

Lemma negative_min_lhs_raises_witness :
  let l := new_learner (with_lhs (-1) 2 (default_config [equals_sum])) in
  (min_lhs (cfg_of l) < 0 /\ min_lhs (cfg_of l) <= max_lhs (cfg_of l)) /\
  train l [VInt 1; VInt 2; VInt 3] 2 = (l, Raise (LearnerFault ValueError)).
Proof.
  cbv zeta. split; [simpl; lia|].
  apply (negative_min_lhs_raises
           (new_learner (with_lhs (-1) 2 (default_config [equals_sum])))
           [VInt 1; VInt 2; VInt 3] 2); simpl; lia.
Defined.

(** X8. A target index outside the row makes a training call raise
    [IndexError] at the first candidate, which is a target rule, and the
    learner is left as it was - no failure count moves.  (There is a
    candidate when the function list is not empty and
    [0 <= min_lhs <= max_lhs], [min_lhs <= len(row)].) *)
Theorem invalid_target_index_raises (l : learner) (row : list value) (t : Z) :
  0 <= min_lhs (cfg_of l) <= max_lhs (cfg_of l) ->
  min_lhs (cfg_of l) <= Z.of_nat (length row) ->
  functions (cfg_of l) <> [] ->
  ~ valid_index row t ->
  train l row t = (l, Raise (LearnerFault IndexError)).
Proof.
  intros Hknobs Hlen Hfns Hinvalid. unfold train, on, on_with, on_body.
  assert (retained l row t = Raise (LearnerFault IndexError)) as ->;
    [|reflexivity].
  unfold retained.
  destruct (enumeration_starts_with_target (cfg_of l) row t Hknobs Hlen Hfns)
    as (c & rest & -> & Hc).
  cbn [bind renew]. unfold evaluate. rewrite Hc.
  rewrite (row_get_invalid row t Hinvalid). reflexivity.
Qed.

Lemma invalid_target_index_raises_witness :
  let l := train_all scenario_A rows_A in
  (0 <= min_lhs (cfg_of l) <= max_lhs (cfg_of l) /\
   min_lhs (cfg_of l) <= Z.of_nat (length [VInt 1; VInt 2; VInt 3]) /\
   functions (cfg_of l) <> [] /\
   ~ valid_index [VInt 1; VInt 2; VInt 3] 3) /\
  train l [VInt 1; VInt 2; VInt 3] 3 = (l, Raise (LearnerFault IndexError)).
Proof.
  cbv zeta.
  assert (0 <= min_lhs (cfg_of (train_all scenario_A rows_A))
          <= max_lhs (cfg_of (train_all scenario_A rows_A))) as H1
    by (rewrite train_all_cfg; simpl; lia).
  assert (min_lhs (cfg_of (train_all scenario_A rows_A))
          <= Z.of_nat (length [VInt 1; VInt 2; VInt 3])) as H2
    by (rewrite train_all_cfg; simpl; lia).
  assert (functions (cfg_of (train_all scenario_A rows_A)) <> []) as H3
    by (rewrite train_all_cfg; simpl; discriminate).
  assert (~ valid_index [VInt 1; VInt 2; VInt 3] 3) as H4
    by (unfold valid_index; simpl; lia).
  split; [auto|].
  exact (invalid_target_index_raises (train_all scenario_A rows_A)
           [VInt 1; VInt 2; VInt 3] 3 H1 H2 H3 H4).
Defined.

(** X9. Failure counts stay within bounds: in every learner of every
    trained tree, each retained hypothesis has a failure count between 0
    and the tolerance (exactly 0 when the tolerance is negative). *)
Theorem failure_counts_are_bounded
    (cfg : config) (examples : list (list value * Z))
    (l' : learner) (k : key) (h : hstate learner) :
  descendant l' (train_all (new_learner cfg) examples) ->
  In (k, h) (hypotheses l') ->
  0 <= fail h <= Z.max 0 (tolerance (cfg_of l')).
Proof.
  intros Hd Hin.
  assert (everywhere counts_bounded (train_all (new_learner cfg) examples))
    as Hall.
  { apply trained_everywhere.
    - intros c k0 h0 [].
    - intros l args. apply counts_bounded_on. }
  exact (Hall l' Hd k h Hin).
Qed.

Lemma failure_counts_are_bounded_witness :
  let l := train_all scenario_B rows_B in
  let k : key := (0%nat, [0%nat; 1%nat], RTarget) in
  (descendant l l /\ In (k, HState 2 None) (hypotheses l)) /\
  0 <= fail (@HState learner 2 None) <= Z.max 0 (tolerance (cfg_of l)).
Proof.
  cbv zeta.
  assert (In ((0%nat, [0%nat; 1%nat], RTarget), @HState learner 2 None)
             (hypotheses (train_all scenario_B rows_B))) as Hin
    by (vm_compute; auto 10).
  split; [split; [apply desc_self | exact Hin]|].
  exact (failure_counts_are_bounded (cfg_of scenario_B) rows_B
           (train_all scenario_B rows_B)
           (0%nat, [0%nat; 1%nat], RTarget) (HState 2 None)
           (desc_self _) Hin).
Defined.

(** X10. The tolerance boundary over consecutive rounds: a hypothesis
    tracked with failure count [f] that does not pass in [n >= 1]
    consecutive training calls is then tracked with count [f + n] if
    [f + n <= tolerance], and is gone otherwise; an untracked key that
    never passes stays untracked. *)
Theorem consecutive_failures
    (cfg : config) (examples rounds : list (list value * Z)) (k : key) :
  0 <= min_lhs cfg ->
  Forall (fun ex : list value * Z =>
            valid_index (fst ex) (snd ex) /\
            passes cfg (fst ex) (snd ex) k = false) rounds ->
  let l := train_all (new_learner cfg) examples in
  failure_count (train_all l rounds) k =
  after_failures (tolerance cfg) (length rounds) (failure_count l k).
Proof.
  intros Hmin Hall l.
  assert (cfg_of l = cfg) as Hcfg by apply train_all_cfg.
  rewrite <- Hcfg. apply failing_rounds.
  - apply trained_dict_ok.
  - rewrite Hcfg. exact Hmin.
  - rewrite Hcfg. exact Hall.
Qed.

Lemma consecutive_failures_witness :
  let cfg := cfg_of scenario_B in
  let k : key := (0%nat, [0%nat; 1%nat], RTarget) in
  let confirming := [([VInt 1; VInt 2; VInt 3], 2);
                     ([VInt 3; VInt 4; VInt 7], 2)] in
  let failing := [([VInt 5; VInt 5; VInt 999], 2);
                  ([VInt 2; VInt 2; VInt 999], 2);
                  ([VInt 1; VInt 1; VInt 999], 2)] in
  (0 <= min_lhs cfg /\
   Forall (fun ex : list value * Z =>
             valid_index (fst ex) (snd ex) /\
             passes cfg (fst ex) (snd ex) k = false) failing) /\
  failure_count (train_all (new_learner cfg) confirming) k = Some 0 /\
  failure_count
    (train_all (train_all (new_learner cfg) confirming) failing) k = None.
Proof.
  cbv zeta.
  assert (0 <= min_lhs (cfg_of scenario_B)) as H1 by (simpl; lia).
  assert (Forall (fun ex : list value * Z =>
             valid_index (fst ex) (snd ex) /\
             passes (cfg_of scenario_B) (fst ex) (snd ex)
                    (0%nat, [0%nat; 1%nat], RTarget) = false)
            [([VInt 5; VInt 5; VInt 999], 2);
             ([VInt 2; VInt 2; VInt 999], 2);
             ([VInt 1; VInt 1; VInt 999], 2)]) as H2.
  { repeat constructor; try (unfold valid_index; simpl; lia);
      vm_compute; reflexivity. }
  split; [split; assumption|].
  split; [vm_compute; reflexivity|].
  rewrite (consecutive_failures (cfg_of scenario_B)
             [([VInt 1; VInt 2; VInt 3], 2); ([VInt 3; VInt 4; VInt 7], 2)]
             _ _ H1 H2).
  vm_compute. reflexivity.
Defined.

(** X11. Only keys of the candidate space are ever tracked: in every
    learner of every trained tree, each key names a position of the
    function list, a strictly ascending LHS subset of a size from
    [min_lhs] to [max_lhs], and - for a constant RHS - one of the
    configured constants. *)
Theorem tracked_keys_are_candidates
    (cfg : config) (examples : list (list value * Z))
    (l' : learner) (k : key) (h : hstate learner) :
  descendant l' (train_all (new_learner cfg) examples) ->
  In (k, h) (hypotheses l') ->
  key_in_space (cfg_of l') k.
Proof.
  intros Hd Hin.
  assert (everywhere keys_in_space (train_all (new_learner cfg) examples))
    as Hall.
  { apply trained_everywhere.
    - intros c k0 h0 [].
    - intros l args. apply keys_in_space_on. }
  exact (Hall l' Hd k h Hin).
Qed.

Lemma tracked_keys_are_candidates_witness :
  let l := train_all scenario_C [([VInt 42; VInt 0], 1)] in
  let k : key := (0%nat, [0%nat], RConstant (VInt 42)) in
  (descendant l l /\ In (k, HState 0 None) (hypotheses l)) /\
  key_in_space (cfg_of l) k.
Proof.
  cbv zeta.
  assert (In ((0%nat, [0%nat], RConstant (VInt 42)), @HState learner 0 None)
             (hypotheses (train_all scenario_C [([VInt 42; VInt 0], 1)])))
    as Hin by (vm_compute; auto 10).
  split; [split; [apply desc_self | exact Hin]|].
  exact (tracked_keys_are_candidates (cfg_of scenario_C)
           [([VInt 42; VInt 0], 1)]
           (train_all scenario_C [([VInt 42; VInt 0], 1)])
           (0%nat, [0%nat], RConstant (VInt 42)) (HState 0 None)
           (desc_self _) Hin).
Defined.

(** X12. Training never touches the configuration, and a child is
    constructed with its owner's function list, constants, [min_lhs],
    [max_lhs] and tolerance: after any sequence of calls the root has the
    configuration it was constructed with, and throughout the tree every
    child agrees with its owner on these five attributes. *)
Theorem configuration_is_kept
    (cfg : config) (examples : list (list value * Z)) :
  (forall l args, cfg_of (fst (on l args)) = cfg_of l) /\
  cfg_of (train_all (new_learner cfg) examples) = cfg /\
  everywhere inherits (train_all (new_learner cfg) examples).
Proof.
  split; [exact on_cfg|]. split; [apply train_all_cfg|].
  apply trained_everywhere.
  - intros c k h c0 [].
  - intros l args. apply inherits_on.
Qed.

(** X13. The size of the enumeration, which every training call walks
    through: (number of LHS subsets of the sizes [min_lhs .. max_lhs]) x
    (number of functions) x (1 target + the feature columns other than
    the target + the constants). *)
Theorem enumeration_size (cfg : config) (row : list value) (t : Z) :
  0 <= min_lhs cfg ->
  exists cands,
    enumerate_hypotheses cfg row t = Ok cands /\
    length cands =
    (subset_count cfg (length row) *
     (length (functions cfg) *
      (1 + feature_count (length row) t + length (constants cfg))))%nat.
Proof.
  intro Hmin. rewrite (enumerate_hypotheses_spec cfg row t Hmin).
  eexists. split; [reflexivity|].
  rewrite length_flat_map. unfold subset_count.
  rewrite <- list_sum_scale. f_equal. apply map_ext. intro size.
  rewrite (flat_map_uniform_length _
             (length (functions cfg) *
              (1 + feature_count (length row) t + length (constants cfg)))).
  - rewrite combinations_length, length_seq. reflexivity.
  - intros s _.
    rewrite (flat_map_uniform_length _
               (1 + feature_count (length row) t + length (constants cfg))).
    + rewrite enumerate_length. reflexivity.
    + intros ifn _. rewrite length_map. apply rhs_candidates_length.
Qed.

Lemma enumeration_size_witness :
  0 <= min_lhs (default_config [equals_sum]) /\
  exists cands,
    enumerate_hypotheses (default_config [equals_sum])
                         [VInt 2; VInt 3; VInt 5] 2 = Ok cands /\
    length cands =
    (subset_count (default_config [equals_sum])
                  (length [VInt 2; VInt 3; VInt 5]) *
     (length (functions (default_config [equals_sum])) *
      (1 + feature_count (length [VInt 2; VInt 3; VInt 5]) 2 +
       length (constants (default_config [equals_sum])))))%nat.
Proof.
  split; [simpl; lia|].
  apply (enumeration_size (default_config [equals_sum])
           [VInt 2; VInt 3; VInt 5] 2).
  simpl. lia.
Defined.

(** X14. Learning the sum rule.  A learner whose only function is
    [equals_sum], with [min_lhs = max_lhs = 2] (any constants, tolerance,
    depth and parent key), trained on one or more rows [[x, y, x + y]]
    with [target_index = 2], predicts on [[a, b, None]] a list that
    includes [a + b]. *)
Theorem learns_the_sum_rule
    (cfg : config) (pairs : list (Z * Z)) (a b : Z) :
  functions cfg = [equals_sum] ->
  min_lhs cfg = 2 ->
  max_lhs cfg = 2 ->
  pairs <> [] ->
  exists out,
    snd (predict (train_all (new_learner cfg) (sum_rows pairs))
                 [VInt a; VInt b; VNone]) = Ok out /\
    In (VInt (a + b)) out.
Proof.
  intros Hf Hmin Hmax Hne.
  set (l := train_all (new_learner cfg) (sum_rows pairs)).
  assert (cfg_of l = cfg) as Hcfg by apply train_all_cfg.
  assert (everywhere (fits 3) l) as Hfit.
  { apply trained_fits. unfold sum_rows. apply Forall_map.
    apply Forall_forall. intros p _. reflexivity. }
  destruct (predict_total l [VInt a; VInt b; VNone] Hfit) as [out Hout].
  exists out. split; [exact Hout|].
  destruct (passing_rounds (0%nat, [0%nat; 1%nat], RTarget) (sum_rows pairs)
              (new_learner cfg)) as [f Hcount].
  - exact I.
  - simpl. lia.
  - unfold sum_rows. apply Forall_map. apply Forall_forall.
    intros [x y] _. simpl. split; [unfold valid_index; simpl; lia|].
    apply sum_rule_passes; assumption.
  - unfold sum_rows. destruct pairs; [congruence | discriminate].
  - fold l in Hcount. unfold failure_count in Hcount.
    destruct (dict_get (hypotheses l) (0%nat, [0%nat; 1%nat], RTarget))
      as [h|] eqn:G; [|discriminate].
    apply dict_get_In in G. destruct G as (k' & Hin & Ek).
    apply target_key_eq in Ek. subst k'.
    apply (predict_complete l [VInt a; VInt b; VNone] out _ Hout).
    exists 0%nat, [0%nat; 1%nat], h, equals_sum, [VInt a; VInt b].
    split; [exact Hin|]. rewrite Hcfg, Hf.
    split; [reflexivity|]. split; [reflexivity|].
    split; [|discriminate].
    unfold call, equals_sum. simpl. rewrite Z.add_0_r. reflexivity.
Qed.

Lemma learns_the_sum_rule_witness :
  (functions (cfg_of scenario_A) = [equals_sum] /\
   min_lhs (cfg_of scenario_A) = 2 /\
   max_lhs (cfg_of scenario_A) = 2 /\
   [(3, 5); (2, 4); (10, -1)] <> []) /\
  exists out,
    snd (predict (train_all (new_learner (cfg_of scenario_A))
                            (sum_rows [(3, 5); (2, 4); (10, -1)]))
                 [VInt 7; VInt 1; VNone]) = Ok out /\
    In (VInt (7 + 1)) out.
Proof.
  split.
  - repeat split; try reflexivity. discriminate.
  - apply (learns_the_sum_rule (cfg_of scenario_A)
             [(3, 5); (2, 4); (10, -1)] 7 1); try reflexivity.
    discriminate.
Defined.

(** X15. [greater_than] on integers: prediction mode returns the
    maximum of a non-empty tuple; comparison mode says whether that
    maximum - that is, some element - exceeds the RHS, so the value it
    predicts never satisfies its own relation.  On an empty tuple it
    raises [ValueError]; on a tuple of two or more values with a [None]
    among them it raises [TypeError]. *)
Theorem greater_than_modes :
  (forall z zs,
      exists M,
        greater_than (map VInt (z :: zs)) None = Returns (VInt M) /\
        In M (z :: zs) /\
        Forall (fun x => x <= M) (z :: zs) /\
        (forall r, greater_than (map VInt (z :: zs)) (Some (VInt r)) =
                   Returns (VBool (r <? M))) /\
        (forall r, holds (call greater_than (map VInt (z :: zs))
                               (Some (VInt r))) = true <->
                   exists x, In x (z :: zs) /\ r < x) /\
        holds (call greater_than (map VInt (z :: zs)) (Some (VInt M)))
          = false) /\
  (forall rhs, greater_than [] rhs = Throws ValueError) /\
  (forall lhs rhs, In VNone lhs -> (2 <= length lhs)%nat ->
                   greater_than lhs rhs = Throws TypeError).
Proof.
  split; [|split].
  - intros z zs. exists (fold_left Z.max zs z).
    destruct (fold_max_spec zs z) as [Hin Hall].
    assert (forall r, greater_than (map VInt (z :: zs)) (Some (VInt r)) =
                      Returns (VBool (r <? fold_left Z.max zs z))) as Hcmp.
    { intro r. unfold greater_than, py_max. cbn [map].
      rewrite max_from_ints. reflexivity. }
    split; [unfold greater_than, py_max; cbn [map];
            rewrite max_from_ints; reflexivity|].
    split; [exact Hin|]. split; [exact Hall|]. split; [exact Hcmp|].
    split.
    + intro r. unfold holds, call. rewrite Hcmp. simpl.
      rewrite Z.ltb_lt. split.
      * intro H. exists (fold_left Z.max zs z). auto.
      * intros (x & Hx & Hr). rewrite Forall_forall in Hall.
        specialize (Hall x Hx). lia.
    + unfold holds, call. rewrite Hcmp. simpl. apply Z.ltb_irrefl.
  - reflexivity.
  - intros [|x [|y r]] rhs Hin Hlen; simpl in Hlen; try lia.
    unfold greater_than, py_max.
    rewrite max_from_none; [reflexivity|].
    destruct Hin as [->|Hin]; [left; split; [reflexivity | discriminate]|].
    right. exact Hin.
Qed.

(** X16. [less_than] on integers: prediction mode returns the minimum
    of a non-empty tuple; comparison mode says whether some element is
    below the RHS, so the value it predicts never satisfies its own
    relation.  It raises [ValueError] on an empty tuple and [TypeError]
    on a tuple of two or more values with a [None] among them. *)
Theorem less_than_modes :
  (forall z zs,
      exists M,
        less_than (map VInt (z :: zs)) None = Returns (VInt M) /\
        In M (z :: zs) /\
        Forall (fun x => M <= x) (z :: zs) /\
        (forall r, less_than (map VInt (z :: zs)) (Some (VInt r)) =
                   Returns (VBool (M <? r))) /\
        (forall r, holds (call less_than (map VInt (z :: zs))
                               (Some (VInt r))) = true <->
                   exists x, In x (z :: zs) /\ x < r) /\
        holds (call less_than (map VInt (z :: zs)) (Some (VInt M)))
          = false) /\
  (forall rhs, less_than [] rhs = Throws ValueError) /\
  (forall lhs rhs, In VNone lhs -> (2 <= length lhs)%nat ->
                   less_than lhs rhs = Throws TypeError).
Proof.
  split; [|split].
  - intros z zs. exists (fold_left Z.min zs z).
    destruct (fold_min_spec zs z) as [Hin Hall].
    assert (forall r, less_than (map VInt (z :: zs)) (Some (VInt r)) =
                      Returns (VBool (fold_left Z.min zs z <? r))) as Hcmp.
    { intro r. unfold less_than, py_min. cbn [map].
      rewrite min_from_ints. reflexivity. }
    split; [unfold less_than, py_min; cbn [map];
            rewrite min_from_ints; reflexivity|].
    split; [exact Hin|]. split; [exact Hall|]. split; [exact Hcmp|].
    split.
    + intro r. unfold holds, call. rewrite Hcmp. simpl.
      rewrite Z.ltb_lt. split.
      * intro H. exists (fold_left Z.min zs z). auto.
      * intros (x & Hx & Hr). rewrite Forall_forall in Hall.
        specialize (Hall x Hx). lia.
    + unfold holds, call. rewrite Hcmp. simpl. apply Z.ltb_irrefl.
  - reflexivity.
  - intros [|x [|y r]] rhs Hin Hlen; simpl in Hlen; try lia.
    unfold less_than, py_min.
    rewrite min_from_none; [reflexivity|].
    destruct Hin as [->|Hin]; [left; split; [reflexivity | discriminate]|].
    right. exact Hin.
Qed.

(** X17. [equals_sum]: on a tuple without [None] neither mode raises,
    and the value predicted satisfies the comparison (a round trip
    between the two modes); on a tuple with a [None] both modes raise
    [TypeError]; and [None] passed as the RHS - as [predict] does for a
    feature column that holds [None] - selects prediction mode, so the
    relation counts as holding exactly when the sum is not zero. *)
Theorem equals_sum_modes :
  (forall lhs, ~ In VNone lhs ->
      exists s,
        equals_sum lhs None = Returns (VInt s) /\
        holds (call equals_sum lhs (Some (VInt s))) = true /\
        (forall v, v <> VNone ->
           equals_sum lhs (Some v) = Returns (VBool (value_eqb (VInt s) v))) /\
        holds (call equals_sum lhs (Some VNone)) = negb (s =? 0)) /\
  (forall lhs rhs, In VNone lhs -> equals_sum lhs rhs = Throws TypeError) /\
  (forall lhs, equals_sum lhs (Some VNone) = equals_sum lhs None).
Proof.
  split; [|split].
  - intros lhs Hn. destruct (py_sum_some lhs Hn) as [s Hs]. exists s.
    unfold holds, call, equals_sum. rewrite Hs. simpl.
    split; [reflexivity|]. split; [apply Z.eqb_refl|].
    split; [|reflexivity].
    intros v Hv. destruct v; [congruence | reflexivity | reflexivity].
  - intros lhs rhs Hin. unfold equals_sum. rewrite (py_sum_none lhs Hin).
    reflexivity.
  - intro lhs. reflexivity.
Qed.

(** X18. A negative target index does not exclude the target column
    from the feature RHS candidates: [_rhs_candidates] compares the
    column positions [0 .. n-1] with [target_index] itself, so for a
    valid negative index (such as the default [-1] of [Context]) the
    column that holds the target value is offered as a feature RHS, and
    the feature candidates are all [n] columns. *)
Theorem negative_target_index_is_not_excluded
    (cfg : config) (row : list value) (t : Z) :
  t < 0 ->
  valid_index row t ->
  let i := Z.to_nat (Z.of_nat (length row) + t) in
  In (RFeature i) (rhs_candidates cfg row t) /\
  row_get row (Z.of_nat i) = row_get row t /\
  feature_count (length row) t = length row.
Proof.
  intros Hneg Hvalid i. unfold valid_index in Hvalid.
  assert (i < length row)%nat as Hi by (unfold i; lia).
  split; [|split].
  - apply rhs_candidates_In. simpl. split; [exact Hi | lia].
  - unfold row_get.
    replace (Z.of_nat i <? 0) with false by (symmetry; apply Z.ltb_ge; lia).
    replace (t <? 0) with true by (symmetry; apply Z.ltb_lt; lia).
    replace (t + Z.of_nat (length row)) with (Z.of_nat i) by (unfold i; lia).
    reflexivity.
  - unfold feature_count.
    replace (0 <=? t) with false by (symmetry; apply Z.leb_gt; lia).
    simpl. lia.
Qed.

Lemma negative_target_index_is_not_excluded_witness :
  (-1 < 0 /\ valid_index [VInt 3; VInt 5; VInt 8] (-1)) /\
  In (RFeature 2)
     (rhs_candidates (cfg_of scenario_A) [VInt 3; VInt 5; VInt 8] (-1)) /\
  row_get [VInt 3; VInt 5; VInt 8] 2 = row_get [VInt 3; VInt 5; VInt 8] (-1) /\
  feature_count 3 (-1) = 3%nat.
Proof.
  assert (-1 < 0) as H1 by lia.
  assert (valid_index [VInt 3; VInt 5; VInt 8] (-1)) as H2
    by (unfold valid_index; simpl; lia).
  split; [split; assumption|].
  exact (negative_target_index_is_not_excluded (cfg_of scenario_A)
           [VInt 3; VInt 5; VInt 8] (-1) H1 H2).
Defined.

(** X19. What the enumeration yields: for a row of length [n], a
    target index [t] and a non-negative [min_lhs], the keys enumerated
    are exactly the triples [(fn_index, lhs_subset, rhs)] with
    [fn_index] a position of the function list, [lhs_subset] a strictly
    ascending sequence of column positions below [n] (whichever they
    are) of a size from [min_lhs] to [max_lhs], and [rhs] the target, a
    feature [i < n] whose position differs from [t] as an integer, or a
    configured constant.  Only a [t] in [0 .. n-1] thereby excludes a
    column; a negative [t] excludes none. *)
Theorem enumeration_is_the_candidate_space
    (cfg : config) (row : list value) (t : Z) :
  0 <= min_lhs cfg ->
  exists cands,
    enumerate_hypotheses cfg row t = Ok cands /\
    (forall fn_index s r,
        In (fn_index, s, r) (map c_key cands) <->
        (fn_index < length (functions cfg))%nat /\
        StronglySorted lt s /\
        Forall (fun i => i < length row)%nat s /\
        min_lhs cfg <= Z.of_nat (length s) <= max_lhs cfg /\
        rhs_in_space cfg row t r) /\
    (forall fn_index s i,
        In (fn_index, s, RFeature i) (map c_key cands) ->
        Z.of_nat i <> t).
Proof.
  intro Hmin.
  destruct (enumerate_hypotheses cfg row t) as [cands|e] eqn:Hen;
    [|rewrite enumerate_hypotheses_spec in Hen by exact Hmin; discriminate].
  exists cands. split; [reflexivity|].
  pose proof (enumerated_keys cfg row t cands Hmin Hen) as Hkeys.
  assert (forall fn_index s r,
             In (fn_index, s, r) (map c_key cands) <->
             (fn_index < length (functions cfg))%nat /\
             ascending 0 (length row) s /\
             min_lhs cfg <= Z.of_nat (length s) <= max_lhs cfg /\
             rhs_in_space cfg row t r) as Hspace.
  { intros fi s r. rewrite in_map_iff. split.
    - intros (c & Hk & Hc). apply Hkeys in Hc.
      destruct Hc as (fn & Hfn & Hasc & Hlen & Hr & Hc).
      rewrite Hc in Hk. simpl in Hk. inversion Hk; subst fi s r.
      split; [apply nth_error_Some; congruence|]. auto.
    - intros (Hfi & Hasc & Hlen & Hr).
      destruct (nth_error (functions cfg) fi) as [fn|] eqn:Hfn;
        [|apply nth_error_None in Hfn; lia].
      exists (Candidate (fi, s, r) fn s (map (fun i => nth i row VNone) s) r).
      split; [reflexivity|]. apply Hkeys. exists fn. simpl. auto. }
  split.
  - intros fi s r. rewrite Hspace, ascending_sorted. split.
    + intros (Hfi & [Hs Hf] & Hlen & Hr). repeat split; try assumption; try lia.
      eapply Forall_impl; [|exact Hf]. simpl. intros; lia.
    + intros (Hfi & Hs & Hf & Hlen & Hr). repeat split; try assumption; try lia.
      eapply Forall_impl; [|exact Hf]. simpl. intros; lia.
  - intros fi s i Hin. apply Hspace in Hin.
    destruct Hin as (_ & _ & _ & Hr). simpl in Hr. tauto.
Qed.

Lemma enumeration_is_the_candidate_space_witness :
  0 <= min_lhs (cfg_of scenario_C) /\
  exists cands,
    enumerate_hypotheses (cfg_of scenario_C) [VInt 42; VInt 0] 1 = Ok cands /\
    (forall fn_index s r,
        In (fn_index, s, r) (map c_key cands) <->
        (fn_index < length (functions (cfg_of scenario_C)))%nat /\
        StronglySorted lt s /\
        Forall (fun i => i < length [VInt 42; VInt 0])%nat s /\
        min_lhs (cfg_of scenario_C) <= Z.of_nat (length s)
          <= max_lhs (cfg_of scenario_C) /\
        rhs_in_space (cfg_of scenario_C) [VInt 42; VInt 0] 1 r) /\
    (forall fn_index s i,
        In (fn_index, s, RFeature i) (map c_key cands) ->
        Z.of_nat i <> 1).
Proof.
  split.
  - simpl. lia.
  - apply (enumeration_is_the_candidate_space
             (cfg_of scenario_C) [VInt 42; VInt 0] 1).
    simpl. lia.
Defined.
